(** * hll.h: a shallow embedding of the HyperLogLog estimator

    The development follows [src/hll.h] in its default configuration:
    [HLL_HASH_T] is [unsigned int] (32 bits), the allocator is [calloc],
    the release function is [free], and the two libm entry points
    [HLL_POWF] and [HLL_LOGF] are configuration points of the header.

    - unsigned 32-bit values are integers of [Z] with the wrap-around
      written out ([wrap32]);
    - the register array lives in a heap ([gmap] from block addresses to
      lists of words); a [hll_t] holds a pointer into it, so that two
      handles may share one array and a released block stays visible as a
      dangling pointer;
    - a computation whose behaviour the C standard leaves undefined
      (reading through a dangling pointer, releasing a block twice, calling
      a null function pointer) yields [None];
    - [float] is IEEE-754 binary32 and [double] binary64, through the
      executable specification [SpecFloat] of the Standard Library;
    - a shift [1 << n] is read as the 32-bit pattern it produces; every
      shift count is below 32 when the precision is in its range.

    The file has five parts: the model, translated from the source; the
    notions that the statements use; lemmas; the properties of the
    header, one theorem each; and further properties of the header and of
    the example program [src/example.c]. *)

From Stdlib Require Import ZArith Lia List Permutation QArith.
From Stdlib Require Import SpecFloat.
From Stdlib Require Strings.Byte.
From stdpp Require Import base option list gmap strings.

Local Open Scope Z_scope.

(** * Part I: the model *)

(** ** Machine integers *)

Module Word.

(** [sizeof(hll_hash_t) * 8] for [hll_hash_t = unsigned int]. *)
Definition bits : Z := 32.

(** Reduction of a mathematical integer to an [unsigned int]. *)
Definition wrap32 (z : Z) : Z := z mod 2 ^ bits.

(** [1 << n] on [int], read back as the 32-bit pattern it has. *)
Definition shl1 (n : Z) : Z := wrap32 (Z.shiftl 1 n).

(** Unary minus on an [unsigned int]: [-x] is [2^32 - x] modulo [2^32]. *)
Definition neg32 (x : Z) : Z := wrap32 (- x).

(** [~x] stored into an [unsigned int]. *)
Definition not32 (x : Z) : Z := wrap32 (Z.lnot x).

End Word.
Export Word.

(** ** Errors *)

Definition hll_error := Z.
Definition HLL_OK : hll_error := 0.
Definition HLL_ERROR_HLL_NULL : hll_error := -1.
Definition HLL_ERROR_INVALID_PRECISION : hll_error := -2.
Definition HLL_ERROR_HLL_UNINITIALIZED : hll_error := -3.
Definition HLL_ERROR_ALLOCATING_MEMORY : hll_error := -4.

Definition HLL_PRECISION_MIN : Z := 4.
Definition HLL_PRECISION_MAX : Z := 16.
Definition HLL_PRECISION : Z := 10.

(** ** Memory *)

Inductive ptr := NULL | Addr (a : nat).

Global Instance ptr_eq_dec : EqDecision ptr.
Proof. solve_decision. Defined.

(** The heap: every live block is an array of [unsigned int]. *)
Abbreviation heap := (gmap nat (list Z)).

(** [p[i]] as an rvalue. *)
Definition load (h : heap) (p : ptr) (i : Z) : option Z :=
  match p with
  | NULL => None
  | Addr a =>
      regs ← h !! a;
      if 0 <=? i then regs !! Z.to_nat i else None
  end.

(** [p[i] = v]. *)
Definition store (h : heap) (p : ptr) (i : Z) (v : Z) : option heap :=
  match p with
  | NULL => None
  | Addr a =>
      regs ← h !! a;
      if (0 <=? i) && (i <? Z.of_nat (length regs))
      then Some (<[a := <[Z.to_nat i := v]> regs]> h)
      else None
  end.

(** [HLL_CALLOC(size, n)]: [res] is the allocator's answer, [NULL] when it
    fails and otherwise the address of a block of [n] zeroed words. *)
Definition calloc (res : ptr) (n : Z) (h : heap) : ptr * heap :=
  match res with
  | NULL => (NULL, h)
  | Addr a => (Addr a, <[a := replicate (Z.to_nat n) 0]> h)
  end.

(** [HLL_FREE(p)]: releasing a block that is not live is undefined. *)
Definition free (h : heap) (p : ptr) : option heap :=
  match p with
  | NULL => Some h
  | Addr a =>
      match h !! a with
      | Some _ => Some (delete a h)
      | None => None
      end
  end.

(** [for (i = 0; i < n; ++i) body], with a bound that the body leaves alone:
    the body runs at [0, 1, ..., n-1] in this order. *)
Fixpoint for_each {S : Type} (idx : list Z) (body : Z → S → option S) (s : S)
  : option S :=
  match idx with
  | [] => Some s
  | i :: rest => s' ← body i s; for_each rest body s'
  end.

(** ** Floating point

    [float] and [double] of the C code, as the binary32 and binary64
    instances of [SpecFloat]; every operation rounds to nearest, ties to
    even. *)

Module F32.
Definition prec : Z := 24.
Definition emax : Z := 128.
Definition add := SFadd prec emax.
Definition sub := SFsub prec emax.
Definition mul := SFmul prec emax.
Definition div := SFdiv prec emax.
Definition opp := SFopp.
Definition ltb := SFltb.
Definition leb := SFleb.
(** Conversion of an integer to [float]. *)
Definition of_Z (z : Z) : spec_float := binary_normalize prec emax z 0 false.
Definition zero : spec_float := S754_zero false.
Definition one : spec_float := of_Z 1.
Definition two : spec_float := of_Z 2.
Definition infinity : spec_float := S754_infinity false.
End F32.

Module F64.
Definition prec : Z := 53.
Definition emax : Z := 1024.
Definition add := SFadd prec emax.
Definition div := SFdiv prec emax.
Definition of_Z (z : Z) : spec_float := binary_normalize prec emax z 0 false.
(** A decimal literal [n / 10^k] of type [double]: the nearest binary64. *)
Definition literal (n : Z) (k : Z) : spec_float := div (of_Z n) (of_Z (10 ^ k)).
End F64.

(** Assignment of a [double] to a [float]. *)
Definition double_to_float (x : spec_float) : spec_float :=
  match x with
  | S754_finite s m e => binary_round F32.prec F32.emax s m e
  | _ => x
  end.

(** Conversion of a [float] to [int], as [return estimate;] does in a
    function that returns [int]: the fraction is dropped; the behaviour is
    undefined when the integral part is not an [int]. *)
Definition float_to_int (x : spec_float) : option Z :=
  match x with
  | S754_zero _ => Some 0
  | S754_finite s m e =>
      let mag := Z.shiftl (Z.pos m) e in
      let v := if s then - mag else mag in
      if (- 2 ^ 31 <=? v) && (v <? 2 ^ 31) then Some v else None
  | _ => None
  end.

Section Estimator.

(** [HLL_ELEMENT_T]: the header is generic in the element type. *)
Variable element : Type.

(** [hll_hash_func_t]; the result is read as an [unsigned int]. *)
Definition hll_hash_func_t := element → Z → Z.

Record hll_t := mk_hll {
  _registers : ptr;
  precision : Z;
  hash : option hll_hash_func_t   (* [None]: a null function pointer *)
}.

(** [_hll_init_impl(hll, hll_src)]; returns the error code, the contents
    of [*hll] afterwards and the heap. *)
Definition _hll_init_impl (alloc : ptr) (h : heap)
    (hll : option hll_t) (hll_src : option hll_t)
  : hll_error * option hll_t * heap :=
  match hll with
  | None => (HLL_ERROR_HLL_NULL, None, h)
  | Some s0 =>
      let s := match hll_src with Some src => src | None => s0 end in
      if (precision s <? HLL_PRECISION_MIN) || (precision s >? HLL_PRECISION_MAX)
      then (HLL_ERROR_INVALID_PRECISION, Some s, h)
      else
        let '(p, h') := calloc alloc (shl1 (precision s)) h in
        let s' := mk_hll p (precision s) (hash s) in
        match p with
        | NULL => (HLL_ERROR_ALLOCATING_MEMORY, Some s', h')
        | Addr _ => (HLL_OK, Some s', h')
        end
  end.

(** The macro [hll_init(hll, .precision = p, .hash = f)]. *)
Definition hll_init (alloc : ptr) (h : heap) (hll : option hll_t)
    (p : Z) (f : option hll_hash_func_t) :=
  _hll_init_impl alloc h hll (Some (mk_hll NULL p f)).

Definition hll_init2 (alloc : ptr) (h : heap) (hll : option hll_t) (p : Z) :=
  _hll_init_impl alloc h hll (Some (mk_hll NULL p None)).

(** [hll_destroy]: the handle itself is not written. *)
Definition hll_destroy (h : heap) (hll : option hll_t)
  : option (hll_error * heap) :=
  match hll with
  | None => Some (HLL_ERROR_HLL_NULL, h)
  | Some s =>
      match _registers s with
      | NULL => Some (HLL_ERROR_HLL_UNINITIALIZED, h)
      | Addr a => h' ← free h (Addr a); Some (HLL_OK, h')
      end
  end.

Definition hll_max (a b : Z) : Z := if a >? b then a else b.

(** The scan of [hll_get_hash_zeros]: [fuel] is the number of iterations
    left of [for (i = 0; i < sizeof(hll_hash_t)*8; ++i)]. *)
Fixpoint zeros_scan (fuel : nat) (head i count : Z) : Z :=
  match fuel with
  | O => count
  | S fuel' =>
      if Z.land head (shl1 i) =? 0
      then zeros_scan fuel' head (i + 1) (count + 1)
      else count
  end.

Definition hll_get_hash_zeros (hash_ : Z) (precision_ : Z) : Z :=
  let head := Z.land hash_ (wrap32 (shl1 precision_ - 1)) in
  zeros_scan (Z.to_nat bits) head 0 0.

(** The register that [hll_add] selects. *)
Definition add_index (hashed_elem precision_ : Z) : Z :=
  let offset := wrap32 (bits - precision_) in
  let mask := not32 (shl1 offset - 1) in
  Z.shiftr (Z.land hashed_elem mask) offset.

(** The value that [hll_add] hands to [hll_max]: [hash_zeros + 1]. *)
Definition add_rank (hashed_elem precision_ : Z) : Z :=
  wrap32 (hll_get_hash_zeros hashed_elem precision_ + 1).

Definition hll_add (h : heap) (hll : option hll_t)
    (elem : element) (element_len : Z) : option (hll_error * heap) :=
  match hll with
  | None => Some (HLL_ERROR_HLL_NULL, h)
  | Some s =>
      match _registers s with
      | NULL => Some (HLL_ERROR_HLL_UNINITIALIZED, h)
      | Addr a =>
          f ← hash s;
          let hashed_elem := wrap32 (f elem element_len) in
          let idx := add_index hashed_elem (precision s) in
          old ← load h (Addr a) idx;
          h' ← store h (Addr a) idx
                 (hll_max old (add_rank hashed_elem (precision s)));
          Some (HLL_OK, h')
      end
  end.

(** One iteration of the loop of [hll_merge]:
    [dest[i] = hll_max(dest[i], src[i])]. *)
Definition merge_body (pd ps : ptr) (i : Z) (h : heap) : option heap :=
  d ← load h pd i;
  s ← load h ps i;
  store h pd i (hll_max d s).

(** The loop runs while [i] is below [1 << dest->precision] and below
    [1 << src->precision], that is below their minimum. *)
Definition hll_merge (h : heap) (hll_dest hll_src : option hll_t)
  : option (hll_error * heap) :=
  match hll_dest, hll_src with
  | Some d, Some s =>
      match _registers d, _registers s with
      | Addr ad, Addr as_ =>
          let n := Z.min (shl1 (precision d)) (shl1 (precision s)) in
          h' ← for_each (seqZ 0 n) (merge_body (Addr ad) (Addr as_)) h;
          Some (HLL_OK, h')
      | _, _ => Some (HLL_ERROR_HLL_UNINITIALIZED, h)
      end
  | _, _ => Some (HLL_ERROR_HLL_NULL, h)
  end.

(** *** [hll_count]

    [powf] and [logf] stand for [HLL_POWF] and [HLL_LOGF]. *)

Section Count.

Variable powf : spec_float → spec_float → spec_float.
Variable logf : spec_float → spec_float.

(** The [switch] that sets [magic]; the constants are [double]
    literals, narrowed by the assignment to a [float]. *)
Definition count_magic (registers_len : Z) : spec_float :=
  if registers_len =? 16 then double_to_float (F64.literal 673 3)
  else if registers_len =? 32 then double_to_float (F64.literal 697 3)
  else if registers_len =? 64 then double_to_float (F64.literal 709 3)
  else double_to_float
         (F64.div (F64.literal 7213 4)
            (F64.add (F64.of_Z 1)
               (F64.div (F64.literal 1079 3) (F64.of_Z registers_len)))).

(** [sum += HLL_POWF(2, -hll->_registers[i])]; the register is an
    [unsigned int], and so is its negation. *)
Definition sum_body (h : heap) (p : ptr) (i : Z) (sum : spec_float)
  : option spec_float :=
  r ← load h p i;
  Some (F32.add sum (powf F32.two (F32.of_Z (neg32 r)))).

(** [for (i = 0; i < registers_len - 1; ++i)]. *)
Definition count_sum (h : heap) (p : ptr) (registers_len : Z)
  : option spec_float :=
  for_each (seqZ 0 (wrap32 (registers_len - 1))) (sum_body h p) F32.zero.

(** [magic * registers_len * registers_len * (1 / sum)]. *)
Definition count_estimate (registers_len : Z) (sum : spec_float)
  : spec_float :=
  F32.mul
    (F32.mul (F32.mul (count_magic registers_len) (F32.of_Z registers_len))
       (F32.of_Z registers_len))
    (F32.div (F32.of_Z 1) sum).

(** The right-hand side [5 / 2 * registers_len] of the first test:
    integer arithmetic, the quotient first. *)
Definition small_range_bound (registers_len : Z) : Z :=
  wrap32 (5 ÷ 2 * registers_len).

(** [estimate < 5 / 2 * registers_len]. *)
Definition small_range (estimate : spec_float) (registers_len : Z) : bool :=
  F32.ltb estimate (F32.of_Z (small_range_bound registers_len)).

Definition zero_body (h : heap) (p : ptr) (i : Z) (n : Z) : option Z :=
  r ← load h p i;
  Some (if r =? 0 then wrap32 (n + 1) else n).

(** [num_of_zero_registers] after its loop. *)
Definition count_zero_registers (h : heap) (p : ptr) (registers_len : Z)
  : option Z :=
  for_each (seqZ 0 registers_len) (zero_body h p) 0.

(** The argument [registers_len / num_of_zero_registers] of [HLL_LOGF]:
    a quotient of two [unsigned int], converted afterwards. *)
Definition linear_counting_arg (registers_len nzero : Z) : spec_float :=
  F32.of_Z (registers_len ÷ nzero).

(** [registers_len * HLL_LOGF(registers_len / num_of_zero_registers)]. *)
Definition linear_counting (registers_len nzero : Z) : spec_float :=
  F32.mul (F32.of_Z registers_len)
    (logf (linear_counting_arg registers_len nzero)).

(** [(float)((1ULL << 32) / 30)]. *)
Definition mid_range_bound : spec_float := F32.of_Z (2 ^ 32 ÷ 30).

(** [-(float)(1ULL << 32) * HLL_LOGF(1 - estimate / (float)(1ULL << 32))]. *)
Definition large_range (estimate : spec_float) : spec_float :=
  F32.mul (F32.opp (F32.of_Z (2 ^ 32)))
    (logf (F32.sub (F32.of_Z 1) (F32.div estimate (F32.of_Z (2 ^ 32))))).

(** The three regimes of [hll_count]. *)
Inductive regime := SmallRange | MidRange | LargeRange.

Definition count_regime (estimate : spec_float) (registers_len : Z) : regime :=
  if small_range estimate registers_len then SmallRange
  else if F32.leb estimate mid_range_bound then MidRange
  else LargeRange.

(** The result is an [int]: an estimate, or a negative [hll_error]. *)
Definition hll_count (h : heap) (hll : option hll_t) : option Z :=
  match hll with
  | None => Some HLL_ERROR_HLL_NULL
  | Some s =>
      match _registers s with
      | NULL => Some HLL_ERROR_HLL_UNINITIALIZED
      | Addr a =>
          let registers_len := shl1 (precision s) in
          sum ← count_sum h (Addr a) registers_len;
          let estimate := count_estimate registers_len sum in
          match count_regime estimate registers_len with
          | SmallRange =>
              nzero ← count_zero_registers h (Addr a) registers_len;
              if nzero =? 0 then float_to_int estimate
              else float_to_int (linear_counting registers_len nzero)
          | MidRange => float_to_int estimate
          | LargeRange => float_to_int (large_range estimate)
          end
      end
  end.

End Count.

End Estimator.

Arguments mk_hll {element} _ _ _.
Arguments _registers {element} _.
Arguments precision {element} _.
Arguments hash {element} _.
Arguments _hll_init_impl {element} _ _ _ _.
Arguments hll_init {element} _ _ _ _ _.
Arguments hll_init2 {element} _ _ _ _.
Arguments hll_destroy {element} _ _.
Arguments hll_add {element} _ _ _ _.
Arguments hll_merge {element} _ _ _.
Arguments hll_count {element} _ _ _ _.

(** ** The default hash function and the error names *)

(** The value of a plain [char]: the platform decides whether it is
    signed. *)
Definition char_value (char_signed : bool) (b : Byte.byte) : Z :=
  let u := Z.of_N (Byte.to_N b) in
  if char_signed && (128 <=? u) then u - 256 else u.

(** [hash = hash * 33 + bytes[i]]: the [char] is promoted to [int] and the
    sum is taken on [unsigned int]. Reading outside the buffer is
    undefined. *)
Definition hash_string_body (char_signed : bool) (bytes : list Byte.byte)
    (i : Z) (hash_ : Z) : option Z :=
  c ← bytes !! Z.to_nat i;
  Some (wrap32 (hash_ * 33 + char_value char_signed c)).

(** [hll_hash_string(bytes, len)]: [bytes] is the buffer the pointer
    designates. *)
Definition hll_hash_string (char_signed : bool) (bytes : list Byte.byte)
    (len : Z) : option Z :=
  for_each (seqZ 0 len) (hash_string_body char_signed bytes) 5381.

(** [hll_error_string]: the test [error >= 0], then the [switch]. *)
Definition hll_error_string (error : hll_error) : string :=
  if error >=? 0 then "HLL_OK"%string
  else if error =? HLL_ERROR_HLL_NULL then "HLL_ERROR_HLL_NULL"%string
  else if error =? HLL_ERROR_INVALID_PRECISION
       then "HLL_ERROR_INVALID_PRECISION"%string
  else if error =? HLL_ERROR_HLL_UNINITIALIZED
       then "HLL_ERROR_HLL_UNINITIALIZED"%string
  else if error =? HLL_ERROR_ALLOCATING_MEMORY
       then "HLL_ERROR_ALLOCATING_MEMORY"%string
  else "HLL_ERROR_UNKNOWN"%string.

(** ** The driver, [example.c] *)

Module Example.

(** [(MAGIC1 * seed + MAGIC2) % MAGIC3] on [unsigned int]; [MAGIC3] is
    [1 << 31], read as the 32-bit pattern [2^31], which the conversion to
    [unsigned int] of the remainder's right operand gives. *)
Definition lcg (seed : Z) : Z :=
  wrap32 (wrap32 (1664525 * seed) + 1013904223) mod shl1 31.

(** [integer_hash(a, _b)], five assignments to [a]. *)
Definition integer_hash (a _b : Z) : Z :=
  let a := Z.lxor (Z.lxor a 61) (Z.shiftr a 16) in
  let a := wrap32 (a + wrap32 (Z.shiftl a 3)) in
  let a := Z.lxor a (Z.shiftr a 4) in
  let a := wrap32 (a * 668265261) in
  let a := Z.lxor a (Z.shiftr a 15) in
  a.

End Example.

(** * Part II: notions used in the statements *)

(** ** The C library

    [HLL_POWF] and [HLL_LOGF] default to [powf] and [logf] of the C
    library, which the header only names. [hll_count] calls [powf] with
    the base 2 and an exponent converted from an [unsigned int], hence an
    integer. IEEE 754 and Annex F of C99 fix the result there: the power of
    two itself when binary32 has it, and the overflow or underflow value
    otherwise. [powf_ref] is this function; other arguments are outside its
    domain and give NaN. *)

Module Libm.

(** The integer that a finite [float] denotes, when it denotes one. *)
Definition float_integer (x : spec_float) : option Z :=
  match x with
  | S754_zero _ => Some 0
  | S754_finite s m e =>
      let n := Z.shiftl (Z.pos m) e in
      if Z.shiftl n (- e) =? Z.pos m
      then Some (if s then - n else n)
      else None
  | _ => None
  end.

Definition powf_ref (x y : spec_float) : spec_float :=
  if SFeqb x F32.two
  then match float_integer y with
       | Some n => binary_round F32.prec F32.emax false 1 n
       | None => S754_nan
       end
  else S754_nan.

End Libm.

(** What the statements on [hll_count] ask of [HLL_POWF]: the value 1 at
    the exponent 0, and the overflow value at the exponent [2^32]. *)
Definition powf_conforms (powf : spec_float → spec_float → spec_float) : Prop :=
  powf F32.two (F32.of_Z 0) = F32.one
  ∧ powf F32.two (F32.of_Z (2 ^ 32)) = F32.infinity.

(** A [float] that is zero, positive or plus infinity. *)
Definition nonneg_float (x : spec_float) : Prop :=
  match x with
  | S754_zero _ | S754_finite false _ _ | S754_infinity false => True
  | _ => False
  end.

(** ** Estimators *)

(** [s] is initialized in [h]: its pointer designates the live block
    [regs] at address [a], of [2^precision] words, and the precision is in
    range. *)
Record initialized {element : Type} (h : heap) (s : hll_t element)
    (a : nat) (regs : list Z) : Prop := {
  init_ptr : _registers s = Addr a;
  init_live : h !! a = Some regs;
  init_prec : HLL_PRECISION_MIN ≤ precision s ≤ HLL_PRECISION_MAX;
  init_len : Z.of_nat (length regs) = 2 ^ precision s
}.

(** The values that [hll_add] writes: a register holds 0 or a run
    statistic, at most 33. *)
Definition rank_value (r : Z) : Prop := 0 ≤ r ≤ 33.

(** The effect of one [hll_add] on the register array. *)
Definition add_regs (p hv : Z) (regs : list Z) : list Z :=
  alter (λ old, hll_max old (add_rank hv p)) (Z.to_nat (add_index hv p)) regs.

(** The caller's loop [for (...) hll_add(&hll, e, len)], as in
    [example.c]: the return codes in order, and the final heap. *)
Fixpoint add_all {element : Type} (h : heap) (hll : option (hll_t element))
    (l : list (element * Z)) : option (list hll_error * heap) :=
  match l with
  | [] => Some ([], h)
  | (e, n) :: rest =>
      '(err, h1) ← hll_add h hll e n;
      '(errs, h2) ← add_all h1 hll rest;
      Some (err :: errs, h2)
  end.

(** The register array after the additions of [l]. *)
Definition regs_after {element : Type} (p : Z) (f : hll_hash_func_t element)
    (l : list (element * Z)) (regs : list Z) : list Z :=
  foldl (λ r x, add_regs p (wrap32 (f x.1 x.2)) r) regs l.

(** The destination array after [n] iterations of the loop of [hll_merge]. *)
Definition merge_regs (n : nat) (rd rs : list Z) : list Z :=
  zip_with hll_max (take n rd) (take n rs) ++ drop n rd.

(** Every block of [h] is still there in [h'], with the same length and
    no word smaller than before. *)
Definition heap_le (h h' : heap) : Prop :=
  ∀ a regs, h !! a = Some regs →
    ∃ regs', h' !! a = Some regs' ∧ Forall2 Z.le regs regs'.

(** A successful [hll_add] or [hll_merge], as a step from heap to heap. *)
Inductive hll_step {element : Type} (h : heap) : heap → Prop :=
| step_add (hll : option (hll_t element)) e n h' :
    hll_add h hll e n = Some (HLL_OK, h') → hll_step h h'
| step_merge (hll_dest hll_src : option (hll_t element)) h' :
    hll_merge h hll_dest hll_src = Some (HLL_OK, h') → hll_step h h'.

(** ** The sum and the zero count of [hll_count] *)

(** One term added to the sum. *)
Definition sum_step (powf : spec_float → spec_float → spec_float)
    (sum : spec_float) (r : Z) : spec_float :=
  F32.add sum (powf F32.two (F32.of_Z (neg32 r))).

(** The number of registers that are zero. *)
Definition zero_count (regs : list Z) : Z :=
  Z.of_nat (length (filter (λ r, r = 0) regs)).

(** ** The words of the specification *)

Module Spec.

(** The raw estimate as the specification words it, over the rationals:
    [E = alpha * m * m / Z] with [Z] the sum of [2^(-r)] over the registers
    [regs] that enter the sum. *)
Definition harmonic_sum (regs : list Z) : Q :=
  foldr (λ r acc, ((1 # 2) ^ r + acc)%Q) 0%Q regs.

Definition raw_estimate (alpha : Q) (m : Z) (regs : list Z) : Q :=
  (alpha * inject_Z m * inject_Z m / harmonic_sum regs)%Q.

End Spec.

(** ** Example estimators *)

(** Precision 4, and a hash function on [unsigned int] elements that
    returns its argument. *)
Definition id_hash : hll_hash_func_t Z := λ x _, x.
Definition blank : hll_t Z := mk_hll NULL 0 None.

(** Sixteen elements, one for each register, each with the run statistic 3. *)
Definition rank3_elements : list (Z * Z) :=
  map (λ i, (Z.lor (Z.shiftl i 28) 4, 4)) (seqZ 0 16).

(** ** Further notions *)

(** The value of [hll_hash_string] after the characters [cs], from [acc]. *)
Definition djb2 (char_signed : bool) (acc : Z) (cs : list Byte.byte) : Z :=
  foldl (λ h c, wrap32 (h * 33 + char_value char_signed c)) acc cs.

(** The codes that the operations of the header return. *)
Inductive returned_code {element : Type} : hll_error → Prop :=
| code_init alloc (h : heap) (hll hll_src : option (hll_t element)) :
    returned_code (_hll_init_impl alloc h hll hll_src).1.1
| code_init2 alloc (h : heap) (hll : option (hll_t element)) p :
    returned_code (hll_init2 alloc h hll p).1.1
| code_destroy (h : heap) (hll : option (hll_t element)) err h' :
    hll_destroy h hll = Some (err, h') → returned_code err
| code_add (h : heap) (hll : option (hll_t element)) e n err h' :
    hll_add h hll e n = Some (err, h') → returned_code err
| code_merge (h : heap) (d s : option (hll_t element)) err h' :
    hll_merge h d s = Some (err, h') → returned_code err.

(** Every word of every block is 0 or a run statistic. *)
Definition heap_ranks (h : heap) : Prop :=
  ∀ a regs, h !! a = Some regs → Forall rank_value regs.

(** The sum of [n] terms 1, in [float]. *)
Definition ones_sum (n : nat) : spec_float :=
  Nat.iter n (λ x, F32.add x F32.one) F32.zero.

(** * Part III: lemmas *)

(** ** Facts about the machine integers *)

Section WordFacts.

Lemma wrap32_small z : 0 ≤ z < 2 ^ 32 → wrap32 z = z.
Proof. intros Hz. unfold wrap32, bits. now apply Z.mod_small. Qed.

Lemma wrap32_range z : 0 ≤ wrap32 z < 2 ^ 32.
Proof. unfold wrap32, bits. apply Z.mod_pos_bound. lia. Qed.

Lemma pow2_lt_32 n : 0 ≤ n < 32 → 0 < 2 ^ n < 2 ^ 32.
Proof.
  intros Hn. split; [apply Z.pow_pos_nonneg; lia|].
  apply Z.pow_lt_mono_r; lia.
Qed.

Lemma shl1_small n : 0 ≤ n < 32 → shl1 n = 2 ^ n.
Proof.
  intros Hn. unfold shl1. rewrite Z.shiftl_1_l.
  apply wrap32_small. pose proof (pow2_lt_32 n Hn). lia.
Qed.

Lemma hll_max_spec a b : hll_max a b = Z.max a b.
Proof. unfold hll_max. destruct (Z.gtb_spec a b); lia. Qed.

Lemma hll_max_ge_l a b : a ≤ hll_max a b.
Proof. rewrite hll_max_spec. lia. Qed.

(** The mask of [hll_add] keeps the bits from [offset] up to 31. *)
Lemma mask_testbit o k :
  0 ≤ o < 32 → 0 ≤ k →
  Z.testbit (not32 (shl1 o - 1)) k = (k <? 32) && (o <=? k).
Proof.
  intros Ho Hk. unfold not32, wrap32, bits.
  rewrite shl1_small by lia.
  replace (2 ^ o - 1) with (Z.ones o) by (rewrite Z.ones_equiv; lia).
  destruct (Z.ltb_spec k 32) as [Hlt|Hge].
  - rewrite Z.mod_pow2_bits_low by lia.
    rewrite Z.lnot_spec by lia.
    destruct (Z.leb_spec o k).
    + rewrite Z.ones_spec_high by lia. reflexivity.
    + rewrite Z.ones_spec_low by lia. reflexivity.
  - rewrite Z.mod_pow2_bits_high by lia. reflexivity.
Qed.

Lemma word_testbit_high h k : 0 ≤ h < 2 ^ 32 → 32 ≤ k → Z.testbit h k = false.
Proof.
  intros Hh Hk.
  destruct (Z.eq_dec h 0) as [->|Hne]; [apply Z.testbit_0_l|].
  apply Z.bits_above_log2; [lia|].
  assert (Z.log2 h < 32) by (apply Z.log2_lt_pow2; lia). lia.
Qed.

(** The register index is the top [precision] bits of the hash. *)
Lemma add_index_eq h p :
  0 ≤ h < 2 ^ 32 → 0 < p ≤ 32 →
  add_index h p = h / 2 ^ (32 - p).
Proof.
  intros Hh Hp. unfold add_index.
  assert (Ho : wrap32 (bits - p) = 32 - p).
  { unfold bits. apply wrap32_small. lia. }
  rewrite Ho. rewrite <- Z.shiftr_div_pow2 by lia.
  apply Z.bits_inj'. intros k Hk.
  rewrite !Z.shiftr_spec by lia. rewrite Z.land_spec.
  rewrite mask_testbit by lia.
  destruct (Z.ltb_spec (k + (32 - p)) 32).
  - replace (32 - p <=? k + (32 - p)) with true by (symmetry; apply Z.leb_le; lia).
    now rewrite andb_true_r.
  - rewrite (word_testbit_high h) by lia. reflexivity.
Qed.

Lemma add_index_range h p :
  0 ≤ h < 2 ^ 32 → 0 < p ≤ 32 → 0 ≤ add_index h p < 2 ^ p.
Proof.
  intros Hh Hp. rewrite add_index_eq by lia.
  assert (H32 : 2 ^ 32 = 2 ^ (32 - p) * 2 ^ p).
  { rewrite <- Z.pow_add_r by lia. f_equal. lia. }
  assert (0 < 2 ^ (32 - p)) by (apply Z.pow_pos_nonneg; lia).
  split; [apply Z.div_pos; lia|].
  apply Z.div_lt_upper_bound; lia.
Qed.

End WordFacts.

(** ** The zero scan of [hll_get_hash_zeros] *)

Section ZeroScan.

Lemma land_pow2_eqb a i :
  0 ≤ i → (Z.land a (2 ^ i) =? 0) = negb (Z.testbit a i).
Proof.
  intros Hi. destruct (Z.testbit a i) eqn:Hb; cbn.
  - apply Z.eqb_neq. intros H0.
    assert (Hc : Z.testbit (Z.land a (2 ^ i)) i = true).
    { rewrite Z.land_spec, Hb, Z.pow2_bits_true by lia. reflexivity. }
    rewrite H0, Z.testbit_0_l in Hc. discriminate.
  - apply Z.eqb_eq. apply Z.bits_inj'. intros k Hk.
    rewrite Z.land_spec, Z.testbit_0_l.
    destruct (Z.eq_dec i k) as [<-|Hne].
    + now rewrite Hb.
    + rewrite Z.pow2_bits_false by lia. apply andb_false_r.
Qed.

(** What the loop returns: it stops at the first set bit at or above [i],
    or after [fuel] iterations. *)
Lemma zeros_scan_spec fuel : ∀ head i count,
  0 ≤ i → i + Z.of_nat fuel ≤ 32 →
  let z := zeros_scan fuel head i count - count in
  0 ≤ z ≤ Z.of_nat fuel
  ∧ (∀ k, i ≤ k < i + z → Z.testbit head k = false)
  ∧ (z < Z.of_nat fuel → Z.testbit head (i + z) = true).
Proof.
  induction fuel as [|fuel IH]; intros head i count Hi Hfuel; cbn [zeros_scan].
  - cbn zeta. rewrite Z.sub_diag. repeat split; intros; lia.
  - rewrite shl1_small by lia. rewrite land_pow2_eqb by lia.
    destruct (Z.testbit head i) eqn:Hb; cbn [negb].
    + cbn zeta. rewrite Z.sub_diag. rewrite Z.add_0_r.
      repeat split; intros; try lia. exact Hb.
    + specialize (IH head (i + 1) (count + 1) ltac:(lia) ltac:(lia)).
      cbn zeta in IH |- *.
      set (r := zeros_scan fuel head (i + 1) (count + 1)) in *.
      destruct IH as (Hr & Hlow & Hhigh).
      repeat split; try lia.
      * intros k Hk. destruct (Z.eq_dec k i) as [->|Hne]; [exact Hb|].
        apply Hlow. lia.
      * intros Hlt. replace (i + (r - count)) with (i + 1 + (r - (count + 1))) by lia.
        apply Hhigh. lia.
Qed.

(** [head] of [hll_get_hash_zeros]: the low [precision] bits of the hash. *)
Lemma head_eq h p :
  0 ≤ p < 32 → Z.land h (wrap32 (shl1 p - 1)) = h mod 2 ^ p.
Proof.
  intros Hp. rewrite shl1_small by lia.
  pose proof (pow2_lt_32 p Hp).
  rewrite wrap32_small by lia.
  replace (2 ^ p - 1) with (Z.ones p) by (rewrite Z.ones_equiv; lia).
  apply Z.land_ones. lia.
Qed.

Lemma testbit_all_false_zero a n :
  0 ≤ a < 2 ^ n → 0 ≤ n →
  (∀ k, 0 ≤ k < n → Z.testbit a k = false) → a = 0.
Proof.
  intros Ha Hn Hall. apply Z.bits_inj'. intros k Hk.
  rewrite Z.testbit_0_l.
  destruct (Z.lt_ge_cases k n) as [Hlt|Hge]; [apply Hall; lia|].
  destruct (Z.eq_dec a 0) as [->|Hne]; [apply Z.testbit_0_l|].
  apply Z.bits_above_log2; [lia|].
  assert (Z.log2 a < n) by (apply Z.log2_lt_pow2; lia). lia.
Qed.

(** The number of zeros found: 32 when the masked window is empty, and
    otherwise the position of its lowest set bit, below [precision]. *)
Lemma hll_get_hash_zeros_spec h p :
  0 ≤ p < 32 →
  let head := h mod 2 ^ p in
  let z := hll_get_hash_zeros h p in
  (∀ k, 0 ≤ k < z → Z.testbit head k = false)
  ∧ ((head = 0 ∧ z = 32) ∨ (head ≠ 0 ∧ 0 ≤ z < p ∧ Z.testbit head z = true)).
Proof.
  intros Hp head z. subst z. unfold hll_get_hash_zeros.
  rewrite head_eq by lia. fold head.
  assert (Hhead : 0 ≤ head < 2 ^ p).
  { apply Z.mod_pos_bound. apply Z.pow_pos_nonneg; lia. }
  pose proof (zeros_scan_spec (Z.to_nat bits) head 0 0 ltac:(lia)
                ltac:(unfold bits; lia)) as Hs.
  cbn zeta in Hs. rewrite Z.sub_0_r in Hs.
  set (z := zeros_scan (Z.to_nat bits) head 0 0) in *.
  replace (Z.of_nat (Z.to_nat bits)) with 32 in Hs by (unfold bits; lia).
  destruct Hs as (Hz & Hlow & Hhigh).
  split; [intros k Hk; apply Hlow; lia|].
  destruct (Z.eq_dec head 0) as [H0|Hne].
  - left. split; [exact H0|].
    destruct (Z.eq_dec z 32) as [|Hlt]; [assumption|].
    specialize (Hhigh ltac:(lia)). rewrite H0, Z.testbit_0_l in Hhigh.
    discriminate.
  - right. split; [exact Hne|].
    assert (Hzp : z < p).
    { destruct (Z.lt_ge_cases z p) as [|Hge]; [assumption|].
      exfalso. apply Hne. apply (testbit_all_false_zero head p); try lia.
      intros k Hk. apply Hlow. lia. }
    repeat split; try lia. rewrite <- (Z.add_0_l z). apply Hhigh. lia.
Qed.

End ZeroScan.

(** ** Loops and memory accesses *)

Section Memory.

Lemma for_each_app {S : Type} (idx1 idx2 : list Z) (body : Z → S → option S) s :
  for_each (idx1 ++ idx2) body s
  = for_each idx1 body s ≫= for_each idx2 body.
Proof.
  revert s. induction idx1 as [|i idx1 IH]; intros s; cbn; [reflexivity|].
  destruct (body i s) as [s'|]; cbn; [apply IH|reflexivity].
Qed.

(** A relation that every iteration respects is respected by the loop. *)
Lemma for_each_preserves {S : Type} (R : S → S → Prop) idx body :
  (∀ s, R s s) → (∀ s1 s2 s3, R s1 s2 → R s2 s3 → R s1 s3) →
  (∀ i s s', body i s = Some s' → R s s') →
  ∀ s s', for_each idx body s = Some s' → R s s'.
Proof.
  intros Hrefl Htrans Hbody. induction idx as [|i idx IH]; intros s s'; cbn.
  - intros [= <-]. apply Hrefl.
  - destruct (body i s) as [s1|] eqn:Hb; cbn; [|discriminate].
    intros Hrest. eapply Htrans; [eapply Hbody, Hb|apply IH, Hrest].
Qed.

Lemma load_live (h : heap) a regs (i : nat) :
  h !! a = Some regs → load h (Addr a) (Z.of_nat i) = regs !! i.
Proof.
  intros Hl. unfold load. rewrite Hl. cbn.
  replace (0 <=? Z.of_nat i) with true by (symmetry; apply Z.leb_le; lia).
  now rewrite Nat2Z.id.
Qed.

Lemma store_live (h : heap) a regs (i : nat) v :
  h !! a = Some regs → (i < length regs)%nat →
  store h (Addr a) (Z.of_nat i) v = Some (<[a := <[i := v]> regs]> h).
Proof.
  intros Hl Hi. unfold store. rewrite Hl. cbn.
  replace (0 <=? Z.of_nat i) with true by (symmetry; apply Z.leb_le; lia).
  replace (Z.of_nat i <? Z.of_nat (length regs)) with true
    by (symmetry; apply Z.ltb_lt; lia).
  cbn. now rewrite Nat2Z.id.
Qed.

(** A successful store wrote into a live block, inside its bounds. *)
Lemma store_inv (h h' : heap) p i v :
  store h p i v = Some h' →
  ∃ a regs, p = Addr a ∧ h !! a = Some regs ∧ 0 ≤ i < Z.of_nat (length regs)
            ∧ h' = <[a := <[Z.to_nat i := v]> regs]> h.
Proof.
  unfold store. destruct p as [|a]; [discriminate|].
  destruct (h !! a) as [regs|] eqn:Hl; cbn; [|discriminate].
  destruct (Z.leb_spec 0 i); cbn; [|discriminate].
  destruct (Z.ltb_spec i (Z.of_nat (length regs))); [|discriminate].
  intros [= <-]. exists a, regs. repeat split; try lia. exact Hl.
Qed.

Lemma load_inv (h : heap) p i v :
  load h p i = Some v →
  ∃ a regs, p = Addr a ∧ h !! a = Some regs ∧ 0 ≤ i
            ∧ regs !! Z.to_nat i = Some v.
Proof.
  unfold load. destruct p as [|a]; [discriminate|].
  destruct (h !! a) as [regs|] eqn:Hl; cbn; [|discriminate].
  destruct (Z.leb_spec 0 i); [|discriminate].
  intros Hv. exists a, regs. repeat split; try lia; assumption.
Qed.

Lemma insert_alter_list (f : Z → Z) (l : list Z) i x :
  l !! i = Some x → <[i := f x]> l = alter f i l.
Proof.
  intros Hx. apply list_eq. intros j.
  destruct (decide (i = j)) as [<-|Hne].
  - rewrite list_lookup_insert_eq by (eapply lookup_lt_Some, Hx).
    now rewrite list_lookup_alter_eq, Hx.
  - now rewrite list_lookup_insert_ne, list_lookup_alter_ne.
Qed.

End Memory.

(** ** Initialized estimators *)

Section EstimatorFacts.

Context {element : Type}.

Lemma length_add_regs p hv regs : length (add_regs p hv regs) = length regs.
Proof. apply length_alter. Qed.

Lemma shl1_precision p :
  HLL_PRECISION_MIN ≤ p ≤ HLL_PRECISION_MAX → shl1 p = 2 ^ p.
Proof. unfold HLL_PRECISION_MIN, HLL_PRECISION_MAX. intros. apply shl1_small. lia. Qed.

Lemma init_ok alloc (h : heap) (s0 : hll_t element) p f :
  HLL_PRECISION_MIN ≤ p ≤ HLL_PRECISION_MAX →
  hll_init (Addr alloc) h (Some s0) p f
  = (HLL_OK, Some (mk_hll (Addr alloc) p f),
     <[alloc := replicate (Z.to_nat (2 ^ p)) 0]> h).
Proof.
  intros Hp. unfold hll_init, _hll_init_impl. cbn [precision hash].
  replace (p <? HLL_PRECISION_MIN) with false by (symmetry; apply Z.ltb_ge; lia).
  replace (p >? HLL_PRECISION_MAX) with false
    by (symmetry; rewrite Z.gtb_ltb; apply Z.ltb_ge; lia).
  cbn. now rewrite shl1_precision.
Qed.

Lemma init_initialized alloc (h : heap) p (f : option (hll_hash_func_t element)) :
  HLL_PRECISION_MIN ≤ p ≤ HLL_PRECISION_MAX →
  initialized (<[alloc := replicate (Z.to_nat (2 ^ p)) 0]> h)
    (mk_hll (Addr alloc) p f) alloc (replicate (Z.to_nat (2 ^ p)) 0).
Proof.
  intros Hp. split; cbn; try done.
  - apply lookup_insert_eq.
  - rewrite length_replicate. apply Z2Nat.id.
    apply Z.pow_nonneg. lia.
Qed.

(** On an initialized estimator with a hash function, [hll_add] succeeds
    and updates one register, inside the array. *)
Lemma hll_add_ok (h : heap) (s : hll_t element) a regs f e n :
  initialized h s a regs → hash s = Some f →
  hll_add h (Some s) e n
  = Some (HLL_OK, <[a := add_regs (precision s) (wrap32 (f e n)) regs]> h).
Proof.
  intros [Hptr Hlive Hprec Hlen] Hf. unfold hll_add. rewrite Hptr, Hf. cbn.
  set (hv := wrap32 (f e n)).
  unfold HLL_PRECISION_MIN, HLL_PRECISION_MAX in Hprec.
  pose proof (add_index_range hv (precision s) (wrap32_range _) ltac:(lia)) as Hidx.
  set (idx := add_index hv (precision s)) in *.
  assert (Hlt : (Z.to_nat idx < length regs)%nat) by lia.
  destruct (lookup_lt_is_Some_2 regs _ Hlt) as [old Hold].
  rewrite Hlive. cbn.
  replace (0 <=? idx) with true by (symmetry; apply Z.leb_le; lia).
  replace (idx <? Z.of_nat (length regs)) with true
    by (symmetry; apply Z.ltb_lt; lia).
  rewrite Hold. cbn.
  unfold add_regs. fold hv idx.
  now rewrite (insert_alter_list (λ old, hll_max old (add_rank hv (precision s))) regs _ old).
Qed.

Lemma add_initialized (h : heap) (s : hll_t element) a regs hv :
  initialized h s a regs →
  initialized (<[a := add_regs (precision s) hv regs]> h) s a
    (add_regs (precision s) hv regs).
Proof.
  intros [Hptr Hlive Hprec Hlen]. split; try done.
  - apply lookup_insert_eq.
  - now rewrite length_add_regs.
Qed.

End EstimatorFacts.

(** ** Sequences of additions *)

Section AddAll.

Context {element : Type}.

Lemma add_regs_comm p x y regs :
  add_regs p x (add_regs p y regs) = add_regs p y (add_regs p x regs).
Proof.
  unfold add_regs.
  destruct (decide (Z.to_nat (add_index x p) = Z.to_nat (add_index y p)))
    as [Heq|Hne].
  - rewrite Heq, !list_alter_alter_eq. apply list_alter_ext; [|reflexivity].
    intros old _. cbn. rewrite !hll_max_spec. lia.
  - now apply list_alter_alter_ne.
Qed.

Lemma regs_after_perm p (f : hll_hash_func_t element) l1 l2 :
  Permutation l1 l2 → ∀ regs, regs_after p f l1 regs = regs_after p f l2 regs.
Proof.
  unfold regs_after.
  induction 1 as [|x l l' _ IH|x y l|l l' l'' _ IH1 _ IH2]; intros regs; cbn.
  - reflexivity.
  - apply IH.
  - now rewrite add_regs_comm.
  - now rewrite IH1.
Qed.

Lemma add_all_ok (l : list (element * Z)) : ∀ (h : heap) (s : hll_t element) a regs f,
  initialized h s a regs → hash s = Some f →
  add_all h (Some s) l
  = Some (replicate (length l) HLL_OK,
          <[a := regs_after (precision s) f l regs]> h).
Proof.
  induction l as [|[e n] l IH]; intros h s a regs f Hinit Hf;
    cbn [add_all length replicate].
  - rewrite insert_id; [reflexivity|]. apply Hinit.
  - rewrite (hll_add_ok h s a regs f e n Hinit Hf). cbn [mbind option_bind].
    rewrite (IH _ s a _ f (add_initialized h s a regs _ Hinit) Hf).
    cbn [mbind option_bind]. now rewrite insert_insert_eq.
Qed.

End AddAll.

(** ** Monotonicity *)

Lemma Forall2_le_refl (l : list Z) : Forall2 Z.le l l.
Proof. induction l; constructor; [lia|assumption]. Qed.

Lemma Forall2_le_trans (l1 l2 l3 : list Z) :
  Forall2 Z.le l1 l2 → Forall2 Z.le l2 l3 → Forall2 Z.le l1 l3.
Proof.
  intros H12. revert l3. induction H12 as [|x y l1 l2 Hxy _ IH]; intros l3 H23.
  - inversion H23. constructor.
  - inversion H23 as [|y' z l2' l3' Hyz Hrest]; subst.
    constructor; [lia|apply IH, Hrest].
Qed.

Lemma Forall2_le_insert (l : list Z) i x v :
  l !! i = Some x → x ≤ v → Forall2 Z.le l (<[i := v]> l).
Proof.
  revert i. induction l as [|y l IH]; intros [|i]; cbn; try discriminate.
  - intros [= ->] Hle. constructor; [exact Hle|apply Forall2_le_refl].
  - intros Hx Hle. constructor; [lia|apply IH; assumption].
Qed.

Lemma heap_le_refl h : heap_le h h.
Proof. intros a regs Ha. exists regs. split; [exact Ha|apply Forall2_le_refl]. Qed.

Lemma heap_le_trans h1 h2 h3 : heap_le h1 h2 → heap_le h2 h3 → heap_le h1 h3.
Proof.
  intros H12 H23 a regs Ha.
  destruct (H12 a regs Ha) as (r2 & Ha2 & Hle2).
  destruct (H23 a r2 Ha2) as (r3 & Ha3 & Hle3).
  exists r3. split; [exact Ha3|eapply Forall2_le_trans; eassumption].
Qed.

(** A read-modify-write that stores a value at least as large. *)
Lemma store_ge_heap_le (h h' : heap) p i old v :
  load h p i = Some old → store h p i v = Some h' → old ≤ v → heap_le h h'.
Proof.
  intros Hload Hstore Hle.
  destruct (load_inv _ _ _ _ Hload) as (a & regs & -> & Hlive & Hi & Hold).
  destruct (store_inv _ _ _ _ _ Hstore) as (a' & regs' & [= <-] & Hlive' & _ & ->).
  rewrite Hlive in Hlive'. injection Hlive' as <-.
  intros b rb Hb. destruct (decide (a = b)) as [<-|Hne].
  - rewrite lookup_insert_eq. rewrite Hlive in Hb. injection Hb as <-.
    eexists; split; [reflexivity|]. eapply Forall2_le_insert; eassumption.
  - rewrite lookup_insert_ne by exact Hne.
    exists rb. split; [exact Hb|apply Forall2_le_refl].
Qed.

Section Steps.

Context {element : Type}.

Lemma hll_add_heap_le (h h' : heap) (hll : option (hll_t element)) e n err :
  hll_add h hll e n = Some (err, h') → heap_le h h'.
Proof.
  unfold hll_add. destruct hll as [s|]; [|intros [= _ <-]; apply heap_le_refl].
  destruct (_registers s) as [|a]; [intros [= _ <-]; apply heap_le_refl|].
  destruct (hash s) as [f|]; cbn [mbind option_bind]; [|discriminate].
  destruct (load h (Addr a) _) as [old|] eqn:Hload; cbn [mbind option_bind];
    [|discriminate].
  destruct (store h (Addr a) _ _) as [h1|] eqn:Hstore; cbn [mbind option_bind];
    [|discriminate].
  intros [= _ <-]. eapply store_ge_heap_le; [exact Hload|exact Hstore|].
  apply hll_max_ge_l.
Qed.

Lemma merge_body_heap_le pd ps i (h h' : heap) :
  merge_body pd ps i h = Some h' → heap_le h h'.
Proof.
  unfold merge_body.
  destruct (load h pd i) as [d|] eqn:Hd; cbn [mbind option_bind]; [|discriminate].
  destruct (load h ps i) as [s|] eqn:Hs; cbn [mbind option_bind]; [|discriminate].
  intros Hstore. eapply store_ge_heap_le; [exact Hd|exact Hstore|].
  apply hll_max_ge_l.
Qed.

Lemma hll_merge_heap_le (h h' : heap) (hll_dest hll_src : option (hll_t element)) err :
  hll_merge h hll_dest hll_src = Some (err, h') → heap_le h h'.
Proof.
  unfold hll_merge.
  destruct hll_dest as [d|], hll_src as [s|];
    try (intros [= _ <-]; apply heap_le_refl).
  destruct (_registers d) as [|ad], (_registers s) as [|as_];
    try (intros [= _ <-]; apply heap_le_refl).
  destruct (for_each _ _ h) as [h1|] eqn:Hloop; cbn [mbind option_bind];
    [|discriminate].
  intros [= _ <-]. revert Hloop.
  apply (for_each_preserves heap_le); auto using heap_le_refl.
  - apply heap_le_trans.
  - intros i s1 s2. apply merge_body_heap_le.
Qed.

End Steps.

(** ** Merge *)

Section Merge.

Lemma merge_regs_prefix_length n (rd rs : list Z) :
  (n ≤ length rd)%nat → (n ≤ length rs)%nat →
  length (zip_with hll_max (take n rd) (take n rs)) = n.
Proof. intros Hd Hs. rewrite length_zip_with, !length_take. lia. Qed.

Lemma length_merge_regs n (rd rs : list Z) :
  (n ≤ length rd)%nat → (n ≤ length rs)%nat →
  length (merge_regs n rd rs) = length rd.
Proof.
  intros Hd Hs. unfold merge_regs.
  rewrite length_app, merge_regs_prefix_length, length_drop by assumption. lia.
Qed.

Lemma merge_regs_lookup_lt n (rd rs : list Z) i x y :
  (i < n)%nat → rd !! i = Some x → rs !! i = Some y →
  merge_regs n rd rs !! i = Some (hll_max x y).
Proof.
  intros Hi Hx Hy. unfold merge_regs.
  assert (Hz : zip_with hll_max (take n rd) (take n rs) !! i = Some (hll_max x y)).
  { rewrite lookup_zip_with, !lookup_take_lt, Hx by assumption. cbn.
    now rewrite Hy. }
  rewrite lookup_app_l; [exact Hz|]. eapply lookup_lt_Some, Hz.
Qed.

Lemma merge_regs_lookup_ge n (rd rs : list Z) i :
  (n ≤ length rd)%nat → (n ≤ length rs)%nat → (n ≤ i)%nat →
  merge_regs n rd rs !! i = rd !! i.
Proof.
  intros Hd Hs Hi. unfold merge_regs.
  rewrite lookup_app_r; rewrite merge_regs_prefix_length by assumption; [|lia].
  rewrite lookup_drop. f_equal. lia.
Qed.

Lemma merge_regs_S n (rd rs : list Z) d s :
  rd !! n = Some d → rs !! n = Some s →
  <[n := hll_max d s]> (merge_regs n rd rs) = merge_regs (S n) rd rs.
Proof.
  intros Hd Hs.
  assert (Hnd : (n < length rd)%nat) by (eapply lookup_lt_Some, Hd).
  assert (Hns : (n < length rs)%nat) by (eapply lookup_lt_Some, Hs).
  apply list_eq. intros i.
  destruct (lt_eq_lt_dec i n) as [[Hlt| ->]|Hgt].
  - rewrite list_lookup_insert_ne by lia.
    destruct (lookup_lt_is_Some_2 rd i ltac:(lia)) as [x Hx].
    destruct (lookup_lt_is_Some_2 rs i ltac:(lia)) as [y Hy].
    rewrite (merge_regs_lookup_lt n rd rs i x y) by (assumption || lia).
    now rewrite (merge_regs_lookup_lt (S n) rd rs i x y) by (assumption || lia).
  - rewrite list_lookup_insert_eq by (rewrite length_merge_regs; lia).
    now rewrite (merge_regs_lookup_lt (S n) rd rs n d s) by (assumption || lia).
  - rewrite list_lookup_insert_ne by lia.
    now rewrite !merge_regs_lookup_ge by lia.
Qed.

Lemma merge_loop_distinct (h : heap) ad as_ rd rs (n : nat) :
  ad ≠ as_ → h !! ad = Some rd → h !! as_ = Some rs →
  (n ≤ length rd)%nat → (n ≤ length rs)%nat →
  for_each (seqZ 0 (Z.of_nat n)) (merge_body (Addr ad) (Addr as_)) h
  = Some (<[ad := merge_regs n rd rs]> h).
Proof.
  intros Hne Hd Hs. induction n as [|n IH]; intros Hnd Hns.
  - cbn. unfold merge_regs. cbn. now rewrite insert_id.
  - rewrite seqZ_S, for_each_app, IH by lia. cbn [mbind option_bind for_each].
    rewrite Z.add_0_l. unfold merge_body.
    destruct (lookup_lt_is_Some_2 rd n ltac:(lia)) as [d Hdn].
    destruct (lookup_lt_is_Some_2 rs n ltac:(lia)) as [s Hsn].
    rewrite (load_live _ ad (merge_regs n rd rs)) by apply lookup_insert_eq.
    rewrite merge_regs_lookup_ge, Hdn by lia. cbn [mbind option_bind].
    rewrite (load_live _ as_ rs) by (now rewrite lookup_insert_ne).
    rewrite Hsn. cbn [mbind option_bind].
    rewrite (store_live _ ad (merge_regs n rd rs))
      by (try apply lookup_insert_eq; rewrite length_merge_regs; lia).
    cbn [mbind option_bind].
    now rewrite insert_insert_eq, (merge_regs_S n rd rs d s).
Qed.

Lemma merge_loop_aliased (h : heap) a regs (n : nat) :
  h !! a = Some regs → (n ≤ length regs)%nat →
  for_each (seqZ 0 (Z.of_nat n)) (merge_body (Addr a) (Addr a)) h = Some h.
Proof.
  intros Hl. induction n as [|n IH]; intros Hn; [reflexivity|].
  rewrite seqZ_S, for_each_app, IH by lia. cbn [mbind option_bind for_each].
  rewrite Z.add_0_l. unfold merge_body.
  destruct (lookup_lt_is_Some_2 regs n ltac:(lia)) as [r Hr].
  rewrite (load_live _ a regs), Hr by exact Hl. cbn [mbind option_bind].
  rewrite (store_live _ a regs) by (assumption || lia).
  cbn [mbind option_bind].
  replace (hll_max r r) with r by (rewrite hll_max_spec; lia).
  now rewrite list_insert_id, insert_id.
Qed.

End Merge.

(** ** Floating point: signs *)

Section FloatFacts.

Lemma shr_1_nonneg mrs : 0 ≤ shr_m mrs → 0 ≤ shr_m (shr_1 mrs).
Proof.
  destruct mrs as [m r s]. cbn [shr_m]. intros Hm.
  destruct m as [|[p|p|]|p]; cbn; lia.
Qed.

Lemma iter_shr_1_nonneg p : ∀ mrs,
  0 ≤ shr_m mrs → 0 ≤ shr_m (SpecFloat.iter_pos shr_1 p mrs).
Proof.
  induction p as [p IH|p IH|]; intros mrs Hm; cbn [SpecFloat.iter_pos].
  - apply IH, IH, shr_1_nonneg, Hm.
  - apply IH, IH, Hm.
  - apply shr_1_nonneg, Hm.
Qed.

Lemma shr_fexp_nonneg prec emax m e l :
  0 ≤ m → 0 ≤ shr_m (shr_fexp prec emax m e l).1.
Proof.
  intros Hm. unfold shr_fexp, shr.
  assert (H0 : 0 ≤ shr_m (shr_record_of_loc m l))
    by (destruct l as [|[]]; exact Hm).
  destruct (fexp prec emax (Zdigits2 m + e) - e); cbn [fst]; try exact H0.
  apply iter_shr_1_nonneg, H0.
Qed.

Lemma round_nearest_even_nonneg m l : 0 ≤ m → 0 ≤ round_nearest_even m l.
Proof.
  intros Hm. unfold round_nearest_even.
  destruct l as [|[]]; try lia. destruct (Z.even m); lia.
Qed.

(** Rounding a positive number never gives NaN or a negative result. *)
Lemma binary_round_aux_nonneg prec emax m e l :
  0 ≤ m → nonneg_float (binary_round_aux prec emax false m e l).
Proof.
  intros Hm. unfold binary_round_aux.
  pose proof (shr_fexp_nonneg prec emax m e l Hm) as H1.
  destruct (shr_fexp prec emax m e l) as [mrs' e'].
  pose proof (shr_fexp_nonneg prec emax
                (round_nearest_even (shr_m mrs') (loc_of_shr_record mrs')) e'
                loc_Exact (round_nearest_even_nonneg _ _ H1)) as H2.
  destruct (shr_fexp prec emax _ e' loc_Exact) as [mrs'' e''].
  cbn [fst] in H2. destruct (shr_m mrs'') as [|p|p]; cbn; try exact I; try lia.
  destruct (e'' <=? emax - prec); exact I.
Qed.

Lemma SFadd_nonneg prec emax x y :
  nonneg_float x → nonneg_float y → nonneg_float (SFadd prec emax x y).
Proof.
  destruct x as [sx|[]| |[] mx ex], y as [sy|[]| |[] my ey];
    cbn [nonneg_float]; try contradiction; intros _ _;
    try exact I; try (destruct sx; exact I); try (destruct sx, sy; exact I).
  unfold SFadd, binary_normalize, cond_Zopp.
  destruct (shl_align mx ex (Z.min ex ey)) as [m1 e1].
  destruct (shl_align my ey (Z.min ex ey)) as [m2 e2]. cbn [fst].
  change (Z.pos m1 + Z.pos m2) with (Z.pos (m1 + m2)).
  unfold binary_round.
  destruct (shl_align _ _ _) as [mz ez].
  apply binary_round_aux_nonneg. lia.
Qed.

Lemma SFadd_infinity prec emax x :
  nonneg_float x → SFadd prec emax x (S754_infinity false) = S754_infinity false.
Proof. destruct x as [sx|[]| |[] mx ex]; cbn; try contradiction; reflexivity. Qed.

End FloatFacts.

(** ** The loops of [hll_count] *)

Section CountLoops.

Variable powf : spec_float → spec_float → spec_float.

Lemma sum_loop (h : heap) a regs (n : nat) acc :
  h !! a = Some regs → (n ≤ length regs)%nat →
  for_each (seqZ 0 (Z.of_nat n)) (sum_body powf h (Addr a)) acc
  = Some (foldl (sum_step powf) acc (take n regs)).
Proof.
  intros Hl. induction n as [|n IH]; intros Hn; [reflexivity|].
  rewrite seqZ_S, for_each_app, IH by lia. cbn [mbind option_bind for_each].
  rewrite Z.add_0_l. unfold sum_body.
  destruct (lookup_lt_is_Some_2 regs n ltac:(lia)) as [r Hr].
  rewrite (load_live h a regs), Hr by exact Hl. cbn [mbind option_bind].
  rewrite (take_S_r regs n r Hr), foldl_app. reflexivity.
Qed.

Lemma zero_count_snoc (l : list Z) r :
  zero_count (l ++ [r]) = zero_count l + (if r =? 0 then 1 else 0).
Proof.
  unfold zero_count. rewrite filter_app, length_app, Nat2Z.inj_add. f_equal.
  destruct (Z.eqb_spec r 0) as [->|Hne].
  - reflexivity.
  - rewrite filter_cons_False by exact Hne. reflexivity.
Qed.

Lemma zero_count_bound (l : list Z) : 0 ≤ zero_count l ≤ Z.of_nat (length l).
Proof.
  unfold zero_count. pose proof (length_filter (λ r : Z, r = 0) l). lia.
Qed.

Lemma zero_loop (h : heap) a regs (n : nat) :
  h !! a = Some regs → (n ≤ length regs)%nat → Z.of_nat n < 2 ^ 32 →
  for_each (seqZ 0 (Z.of_nat n)) (zero_body h (Addr a)) 0
  = Some (zero_count (take n regs)).
Proof.
  intros Hl. induction n as [|n IH]; intros Hn Hsmall; [reflexivity|].
  rewrite seqZ_S, for_each_app, IH by lia. cbn [mbind option_bind for_each].
  rewrite Z.add_0_l. unfold zero_body.
  destruct (lookup_lt_is_Some_2 regs n ltac:(lia)) as [r Hr].
  rewrite (load_live h a regs), Hr by exact Hl. cbn [mbind option_bind].
  rewrite (take_S_r regs n r Hr), zero_count_snoc.
  pose proof (zero_count_bound (take n regs)) as Hb.
  rewrite length_take in Hb.
  destruct (r =? 0); [|now rewrite Z.add_0_r].
  rewrite wrap32_small by lia. reflexivity.
Qed.

(** [hll_count] once the sum is known and the first test has passed. *)
Lemma hll_count_small_range {element : Type} logf (h : heap)
    (s : hll_t element) a sum nzero :
  _registers s = Addr a →
  count_sum powf h (Addr a) (shl1 (precision s)) = Some sum →
  count_regime (count_estimate (shl1 (precision s)) sum) (shl1 (precision s))
  = SmallRange →
  count_zero_registers h (Addr a) (shl1 (precision s)) = Some nzero →
  hll_count powf logf h (Some s)
  = if nzero =? 0
    then float_to_int (count_estimate (shl1 (precision s)) sum)
    else float_to_int (linear_counting logf (shl1 (precision s)) nzero).
Proof.
  intros Hptr Hsum Hreg Hzero. unfold hll_count.
  rewrite Hptr, Hsum. cbn [mbind option_bind].
  rewrite Hreg, Hzero. reflexivity.
Qed.

End CountLoops.

(** ** [hll_count] on the arrays that [hll_add] builds *)

Section RankValues.

Lemma hll_max_rank_value a b : rank_value a → rank_value b → rank_value (hll_max a b).
Proof. unfold rank_value. rewrite hll_max_spec. lia. Qed.

Lemma add_rank_value hv p :
  HLL_PRECISION_MIN ≤ p ≤ HLL_PRECISION_MAX → rank_value (add_rank hv p).
Proof.
  unfold HLL_PRECISION_MIN, HLL_PRECISION_MAX. intros Hp.
  destruct (hll_get_hash_zeros_spec hv p ltac:(lia)) as (_ & Hcase).
  assert (Hz : 0 ≤ hll_get_hash_zeros hv p ≤ 32)
    by (destruct Hcase as [[_ ->]|(_ & ? & _)]; lia).
  unfold add_rank, rank_value. rewrite wrap32_small; lia.
Qed.

Lemma add_regs_rank_value p hv regs :
  HLL_PRECISION_MIN ≤ p ≤ HLL_PRECISION_MAX →
  Forall rank_value regs → Forall rank_value (add_regs p hv regs).
Proof.
  intros Hp Hall. unfold add_regs. apply Forall_alter; [exact Hall|].
  intros old _ Hold. apply hll_max_rank_value; [exact Hold|].
  apply add_rank_value, Hp.
Qed.

Lemma regs_after_rank_value {element : Type} p (f : hll_hash_func_t element) l :
  HLL_PRECISION_MIN ≤ p ≤ HLL_PRECISION_MAX →
  ∀ regs, Forall rank_value regs → Forall rank_value (regs_after p f l regs).
Proof.
  intros Hp. unfold regs_after.
  induction l as [|x l IH]; intros regs Hall; cbn [foldl]; [exact Hall|].
  apply IH, add_regs_rank_value; assumption.
Qed.

(** The negation of a register from 1 to 33, as an [unsigned int], is so
    close to [2^32] that its conversion to [float] is [2^32]. *)
Lemma neg32_rank_float r :
  1 ≤ r ≤ 33 → F32.of_Z (neg32 r) = F32.of_Z (2 ^ 32).
Proof.
  intros Hr. rewrite <- (Z2Nat.id r) by lia.
  assert (Hk : (1 ≤ Z.to_nat r ≤ 33)%nat) by lia.
  generalize dependent (Z.to_nat r). intros k Hk.
  destruct k as [|k]; [lia|].
  do 33 (destruct k as [|k]; [vm_compute; reflexivity|]). lia.
Qed.

Lemma precision_cases p :
  HLL_PRECISION_MIN ≤ p ≤ HLL_PRECISION_MAX →
  p ∈ [4; 5; 6; 7; 8; 9; 10; 11; 12; 13; 14; 15; 16].
Proof.
  unfold HLL_PRECISION_MIN, HLL_PRECISION_MAX. intros Hp.
  assert (H : p = 4 ∨ p = 5 ∨ p = 6 ∨ p = 7 ∨ p = 8 ∨ p = 9 ∨ p = 10 ∨ p = 11
              ∨ p = 12 ∨ p = 13 ∨ p = 14 ∨ p = 15 ∨ p = 16) by lia.
  clear Hp. repeat (destruct H as [H|H]; [subst p; set_solver|]).
  subst p. set_solver.
Qed.

(** With an infinite sum the estimate is 0, below the bound of the first
    test, at every precision. *)
Lemma estimate_of_infinite_sum p :
  HLL_PRECISION_MIN ≤ p ≤ HLL_PRECISION_MAX →
  count_estimate (2 ^ p) F32.infinity = F32.zero
  ∧ count_regime F32.zero (2 ^ p) = SmallRange.
Proof.
  intros Hp. pose proof (precision_cases p Hp) as Hin. clear Hp.
  repeat (apply elem_of_cons in Hin as [Hin|Hin];
          [subst p; split; vm_compute; reflexivity|]).
  inversion Hin.
Qed.

Variable powf : spec_float → spec_float → spec_float.
Hypothesis Hpowf : powf_conforms powf.

Lemma sum_term_zero : powf F32.two (F32.of_Z (neg32 0)) = F32.one.
Proof. exact (proj1 Hpowf). Qed.

Lemma sum_term_overflow r :
  rank_value r → r ≠ 0 → powf F32.two (F32.of_Z (neg32 r)) = F32.infinity.
Proof.
  unfold rank_value. intros Hr Hne.
  rewrite neg32_rank_float by lia. exact (proj2 Hpowf).
Qed.

Lemma sum_step_nonneg acc r :
  nonneg_float acc → rank_value r → nonneg_float (sum_step powf acc r).
Proof.
  intros Hacc Hr. unfold sum_step, F32.add. apply SFadd_nonneg; [exact Hacc|].
  destruct (Z.eq_dec r 0) as [->|Hne].
  - rewrite sum_term_zero. exact I.
  - rewrite sum_term_overflow by assumption. exact I.
Qed.

Lemma sum_step_infinity acc r :
  nonneg_float acc → rank_value r → r ≠ 0 →
  sum_step powf acc r = F32.infinity.
Proof.
  intros Hacc Hr Hne. unfold sum_step, F32.add.
  rewrite sum_term_overflow by assumption. apply SFadd_infinity, Hacc.
Qed.

(** One register that is not zero makes the sum infinite. *)
Lemma sum_infinite (l : list Z) : ∀ acc,
  nonneg_float acc → Forall rank_value l → Exists (λ r, r ≠ 0) l →
  foldl (sum_step powf) acc l = F32.infinity.
Proof.
  assert (Hstay : ∀ l0, Forall rank_value l0 →
            foldl (sum_step powf) F32.infinity l0 = F32.infinity).
  { induction 1 as [|r l0 Hr _ IH]; cbn [foldl]; [reflexivity|].
    destruct (Z.eq_dec r 0) as [->|Hne].
    - unfold sum_step at 2. rewrite sum_term_zero. exact IH.
    - rewrite sum_step_infinity; [exact IH|exact I|exact Hr|exact Hne]. }
  induction l as [|r l IH]; intros acc Hacc Hall Hex; [inversion Hex|].
  cbn [foldl]. apply Forall_cons in Hall as [Hr Hall].
  destruct (Z.eq_dec r 0) as [->|Hne].
  - apply IH; [apply sum_step_nonneg; assumption|exact Hall|].
    inversion Hex as [? ? H0|]; [contradiction|assumption].
  - rewrite sum_step_infinity by assumption. apply Hstay, Hall.
Qed.

(** What [hll_count] returns on an initialized estimator whose registers
    hold run statistics, one of the first [m-1] not zero: the first test
    passes, whatever the registers are; the result is 0 when no register is
    zero, and otherwise [m * logf(m / V)] with the quotient of the two
    integers. *)
Lemma hll_count_on_ranks {element : Type} logf (h : heap)
    (s : hll_t element) a regs :
  initialized h s a regs → Forall rank_value regs →
  Exists (λ r, r ≠ 0) (take (Z.to_nat (2 ^ precision s - 1)) regs) →
  let m := 2 ^ precision s in
  count_sum powf h (Addr a) (shl1 (precision s)) = Some F32.infinity
  ∧ count_regime (count_estimate m F32.infinity) m = SmallRange
  ∧ hll_count powf logf h (Some s)
    = if zero_count regs =? 0 then Some 0
      else float_to_int (linear_counting logf m (zero_count regs)).
Proof.
  intros Hinit Hall Hex m.
  destruct Hinit as [Hptr Hlive Hprec Hlen].
  assert (Hm : 0 < m < 2 ^ 32).
  { unfold HLL_PRECISION_MIN, HLL_PRECISION_MAX in Hprec.
    apply pow2_lt_32. lia. }
  destruct (estimate_of_infinite_sum _ Hprec) as [Hest Hreg]. fold m in Hest, Hreg.
  assert (Hsum : count_sum powf h (Addr a) (shl1 (precision s)) = Some F32.infinity).
  { unfold count_sum. rewrite shl1_precision by assumption. fold m.
    rewrite wrap32_small by lia.
    rewrite <- (Z2Nat.id (m - 1)) at 1 by lia.
    rewrite (sum_loop powf h a regs) by (assumption || lia). f_equal.
    apply sum_infinite; [exact I| |exact Hex].
    apply Forall_take, Hall. }
  assert (Hzero : count_zero_registers h (Addr a) (shl1 (precision s))
                  = Some (zero_count regs)).
  { unfold count_zero_registers. rewrite shl1_precision by assumption. fold m.
    rewrite <- (Z2Nat.id m) by lia.
    rewrite (zero_loop h a regs) by (assumption || lia).
    rewrite take_ge by lia. reflexivity. }
  split; [exact Hsum|]. split; [now rewrite Hest|].
  rewrite (hll_count_small_range powf logf h s a F32.infinity (zero_count regs));
    try assumption.
  - rewrite shl1_precision by assumption. fold m. rewrite Hest. reflexivity.
  - rewrite shl1_precision by assumption. fold m. now rewrite Hest.
Qed.

End RankValues.

Lemma powf_ref_conforms : powf_conforms Libm.powf_ref.
Proof. split; vm_compute; reflexivity. Qed.

(** * Part IV: the properties of the header *)

(** ** [hll_count] *)

(** C1: the code departs from the claim. After sixteen additions that set
    every register of a precision-4 estimator to 3, the raw estimate of the
    claim is above [5/2 * m], whether the sum takes 15 registers or 16, so
    that the claim puts the call outside the small-range branch. The code
    takes the small-range branch and returns 0, with every [powf] that
    returns 1 at the exponent 0 and overflows at the exponent [2^32]: the
    exponent handed to [powf] is the negation of an [unsigned int],
    [2^32 - 3], the power is infinite, so is the sum, and the computed
    estimate is 0. The bound of the test itself is [5 / 2 * m] in integer
    arithmetic, [2 * m], and the comparison is strict: an estimate of 33 at
    [m = 16] is at most [5/2 * m] and fails the test. *)
Theorem small_range_taken_above_bound
    (powf : spec_float → spec_float → spec_float) :
  powf_conforms powf →
  let s := mk_hll (Addr 0) 4 (Some id_hash) in
  let h0 : heap := {[ 0%nat := replicate 16 0 ]} in
  let h1 : heap := {[ 0%nat := replicate 16 3 ]} in
  hll_init (Addr 0) ∅ (Some blank) 4 (Some id_hash) = (HLL_OK, Some s, h0)
  ∧ add_all h0 (Some s) rank3_elements = Some (replicate 16 HLL_OK, h1)
  ∧ count_sum powf h1 (Addr 0) 16 = Some F32.infinity
  ∧ count_estimate 16 F32.infinity = F32.zero
  ∧ count_regime F32.zero 16 = SmallRange
  ∧ (∀ logf, hll_count powf logf h1 (Some s) = Some 0)
  ∧ ((5 # 2) * 16 < Spec.raw_estimate (673 # 1000) 16 (replicate 15 3%Z))%Q
  ∧ ((5 # 2) * 16 < Spec.raw_estimate (673 # 1000) 16 (replicate 16 3%Z))%Q
  ∧ small_range_bound 16 = 2 * 16
  ∧ small_range (F32.of_Z 33) 16 = false
  ∧ F32.leb (F32.of_Z 33)
      (F32.mul (F32.div (F32.of_Z 5) (F32.of_Z 2)) (F32.of_Z 16)) = true.
Proof.
  intros Hpowf s h0 h1.
  assert (Hinit : initialized h1 s 0%nat (replicate 16 3)).
  { split; [reflexivity|reflexivity| |reflexivity].
    unfold HLL_PRECISION_MIN, HLL_PRECISION_MAX. cbn. lia. }
  assert (Hall : Forall rank_value (replicate 16 3)).
  { apply Forall_replicate. unfold rank_value. lia. }
  assert (Hex : Exists (λ r, r ≠ 0)
                  (take (Z.to_nat (2 ^ precision s - 1)) (replicate 16 3))).
  { apply Exists_cons_hd. discriminate. }
  split; [reflexivity|]. split; [vm_compute; reflexivity|].
  split; [exact (proj1 (hll_count_on_ranks powf Hpowf (λ x, x) h1 s 0%nat _
                          Hinit Hall Hex))|].
  split; [vm_compute; reflexivity|]. split; [vm_compute; reflexivity|].
  split.
  { intros logf.
    exact (proj2 (proj2 (hll_count_on_ranks powf Hpowf logf h1 s 0%nat _
                           Hinit Hall Hex))). }
  repeat lazymatch goal with |- _ ∧ _ => split end; (vm_compute; reflexivity).
Qed.

Lemma small_range_taken_above_bound_witness :
  powf_conforms Libm.powf_ref
  ∧ ∀ logf, hll_count Libm.powf_ref logf {[ 0%nat := replicate 16 3 ]}
              (Some (mk_hll (Addr 0) 4 (Some id_hash))) = Some 0.
Proof.
  split; [exact powf_ref_conforms|].
  exact (proj1 (proj2 (proj2 (proj2 (proj2 (proj2
           (small_range_taken_above_bound Libm.powf_ref powf_ref_conforms))))))).
Defined.

(** C2: the code departs from the claim. After one addition to a fresh
    precision-4 estimator, 15 of the 16 registers are zero and the call is
    in the small-range branch. The quotient handed to [logf] is the one of
    two [unsigned int], [16 / 15 = 1], and not the ratio [16/15]: the call
    returns [(int)(16 * logf(1.0f))], which is 0 for the logarithm, where
    the claim has [16 * ln(16/15)], above 1. *)
Theorem linear_counting_integer_quotient
    (powf : spec_float → spec_float → spec_float) :
  powf_conforms powf →
  let s := mk_hll (Addr 0) 4 (Some id_hash) in
  let h0 : heap := {[ 0%nat := replicate 16 0 ]} in
  let h1 : heap := {[ 0%nat := 1 :: replicate 15 0 ]} in
  hll_init (Addr 0) ∅ (Some blank) 4 (Some id_hash) = (HLL_OK, Some s, h0)
  ∧ hll_add h0 (Some s) 5 4 = Some (HLL_OK, h1)
  ∧ count_zero_registers h1 (Addr 0) 16 = Some 15
  ∧ count_sum powf h1 (Addr 0) 16 = Some F32.infinity
  ∧ count_regime (count_estimate 16 F32.infinity) 16 = SmallRange
  ∧ linear_counting_arg 16 15 = F32.one
  ∧ F32.div (F32.of_Z 16) (F32.of_Z 15) ≠ F32.one
  ∧ (∀ logf, hll_count powf logf h1 (Some s)
             = float_to_int (F32.mul (F32.of_Z 16) (logf F32.one)))
  ∧ float_to_int (F32.mul (F32.of_Z 16) F32.zero) = Some 0.
Proof.
  intros Hpowf s h0 h1.
  assert (Hinit : initialized h1 s 0%nat (1 :: replicate 15 0)).
  { split; [reflexivity|reflexivity| |reflexivity].
    unfold HLL_PRECISION_MIN, HLL_PRECISION_MAX. cbn. lia. }
  assert (Hall : Forall rank_value (1 :: replicate 15 0)).
  { apply Forall_cons. split; [unfold rank_value; lia|].
    apply Forall_replicate. unfold rank_value. lia. }
  assert (Hex : Exists (λ r, r ≠ 0)
                  (take (Z.to_nat (2 ^ precision s - 1)) (1 :: replicate 15 0))).
  { apply Exists_cons_hd. discriminate. }
  split; [reflexivity|]. split; [vm_compute; reflexivity|].
  split; [vm_compute; reflexivity|].
  split; [exact (proj1 (hll_count_on_ranks powf Hpowf (λ x, x) h1 s 0%nat _
                          Hinit Hall Hex))|].
  split; [vm_compute; reflexivity|]. split; [vm_compute; reflexivity|].
  split; [vm_compute; discriminate|].
  split; [|vm_compute; reflexivity].
  intros logf.
  rewrite (proj2 (proj2 (hll_count_on_ranks powf Hpowf logf h1 s 0%nat _
                           Hinit Hall Hex))).
  replace (zero_count (1 :: replicate 15 0)) with 15 by (vm_compute; reflexivity).
  change (15 =? 0) with false. cbv iota. unfold linear_counting.
  replace (2 ^ precision s) with 16 by reflexivity.
  replace (linear_counting_arg 16 15) with F32.one by (vm_compute; reflexivity).
  reflexivity.
Qed.

Lemma linear_counting_integer_quotient_witness :
  powf_conforms Libm.powf_ref
  ∧ ∀ logf, hll_count Libm.powf_ref logf {[ 0%nat := 1 :: replicate 15 0 ]}
              (Some (mk_hll (Addr 0) 4 (Some id_hash)))
            = float_to_int (F32.mul (F32.of_Z 16) (logf F32.one)).
Proof.
  split; [exact powf_ref_conforms|].
  exact (proj1 (proj2 (proj2 (proj2 (proj2 (proj2 (proj2 (proj2
           (linear_counting_integer_quotient Libm.powf_ref
              powf_ref_conforms))))))))).
Defined.

(** C3: the loop that builds the sum of [hll_count] runs over the indices
    0 to [m-2]: the sum is the one of the first [m-1] registers, and the
    value of the register at index [m-1] has no effect on it. *)
Theorem count_sum_skips_last {element : Type}
    (powf : spec_float → spec_float → spec_float)
    (h : heap) (s : hll_t element) a regs :
  initialized h s a regs →
  let m := 2 ^ precision s in
  count_sum powf h (Addr a) (shl1 (precision s))
  = Some (foldl (sum_step powf) F32.zero (take (Z.to_nat (m - 1)) regs))
  ∧ ∀ v, count_sum powf (<[a := <[Z.to_nat (m - 1) := v]> regs]> h)
           (Addr a) (shl1 (precision s))
         = count_sum powf h (Addr a) (shl1 (precision s)).
Proof.
  intros [Hptr Hlive Hprec Hlen] m.
  assert (Hm : 0 < m < 2 ^ 32).
  { unfold HLL_PRECISION_MIN, HLL_PRECISION_MAX in Hprec.
    apply pow2_lt_32. lia. }
  assert (Hsum : ∀ (h0 : heap) regs0, h0 !! a = Some regs0 →
            length regs0 = length regs →
            count_sum powf h0 (Addr a) (shl1 (precision s))
            = Some (foldl (sum_step powf) F32.zero (take (Z.to_nat (m - 1)) regs0))).
  { intros h0 regs0 Hl0 Hlen0. unfold count_sum.
    rewrite shl1_precision by assumption. fold m.
    rewrite wrap32_small by lia.
    rewrite <- (Z2Nat.id (m - 1)) at 1 by lia.
    apply sum_loop; [exact Hl0|lia]. }
  split; [apply Hsum; [exact Hlive|reflexivity]|].
  intros v. rewrite (Hsum h regs Hlive eq_refl).
  rewrite (Hsum _ (<[Z.to_nat (m - 1) := v]> regs));
    [|apply lookup_insert_eq|apply length_insert].
  now rewrite take_insert_ge by lia.
Qed.

Lemma count_sum_skips_last_witness :
  count_sum Libm.powf_ref
    (<[0%nat := <[15%nat := 7]> (replicate 16 0)]> {[ 0%nat := replicate 16 0 ]})
    (Addr 0) (shl1 4)
  = count_sum Libm.powf_ref {[ 0%nat := replicate 16 0 ]} (Addr 0) (shl1 4).
Proof.
  refine (proj2 (count_sum_skips_last (element := Z) Libm.powf_ref
            {[ 0%nat := replicate 16 0 ]} (mk_hll (Addr 0) 4 None) 0%nat
            (replicate 16 0) _) 7).
  split; cbn; try reflexivity. unfold HLL_PRECISION_MIN, HLL_PRECISION_MAX; lia.
Defined.

(** ** [hll_add] *)

(** C4, as amended: on an initialized estimator, [hll_add] writes into the
    selected register the maximum of its old value and the run statistic;
    the statistic is one plus the number of consecutive zero bits of the
    hash masked to its low [p] bits, from bit 0 upward; it lies in [1, p]
    when the masked window has a set bit, and it is the scan width plus
    one, 33, when the window has none. *)
Theorem add_rank_spec {element : Type} (h : heap) (s : hll_t element)
    a regs f e n :
  initialized h s a regs → hash s = Some f →
  let p := precision s in
  let hv := wrap32 (f e n) in
  let head := Z.land hv (Z.ones p) in
  let z := hll_get_hash_zeros hv p in
  hll_add h (Some s) e n
  = Some (HLL_OK,
          <[a := alter (λ old, hll_max old (add_rank hv p))
                   (Z.to_nat (add_index hv p)) regs]> h)
  ∧ add_rank hv p = z + 1
  ∧ (∀ k, 0 ≤ k < z → Z.testbit head k = false)
  ∧ ((head ≠ 0 ∧ Z.testbit head z = true ∧ 1 ≤ add_rank hv p ≤ p)
     ∨ (head = 0 ∧ add_rank hv p = bits + 1)).
Proof.
  intros Hinit Hf p hv head z.
  split; [exact (hll_add_ok h s a regs f e n Hinit Hf)|].
  pose proof (init_prec _ _ _ _ Hinit) as Hp. fold p in Hp.
  unfold HLL_PRECISION_MIN, HLL_PRECISION_MAX in Hp.
  assert (Hhead : head = hv mod 2 ^ p).
  { unfold head. apply Z.land_ones. lia. }
  rewrite Hhead.
  destruct (hll_get_hash_zeros_spec hv p ltac:(lia)) as (Hlow & Hcase).
  fold z in Hlow, Hcase.
  assert (Hz : 0 ≤ z ≤ 32) by (destruct Hcase as [[_ ->]|(_ & ? & _)]; lia).
  assert (Hrank : add_rank hv p = z + 1).
  { unfold add_rank. fold z. apply wrap32_small. lia. }
  split; [exact Hrank|]. split; [exact Hlow|].
  rewrite Hrank. destruct Hcase as [[H0 ->]|(Hne & Hzp & Hbit)].
  - right. split; [exact H0|reflexivity].
  - left. repeat split; try assumption; lia.
Qed.

Lemma add_rank_spec_witness :
  add_rank (wrap32 12) 4 = hll_get_hash_zeros (wrap32 12) 4 + 1.
Proof.
  refine (proj1 (proj2 (add_rank_spec (element := Z)
    {[ 0%nat := replicate 16 0 ]} (mk_hll (Addr 0) 4 (Some (λ x _, x)))
    0%nat (replicate 16 0) (λ x _, x) 12 4 _ _))).
  - split; cbn; [reflexivity|reflexivity|unfold HLL_PRECISION_MIN, HLL_PRECISION_MAX; lia|reflexivity].
  - reflexivity.
Defined.

(** C4, as stated, fails at the hash value 0: no bit of the masked window
    is set, the scan runs over all 32 positions and the statistic is 33,
    which is neither in [1, p+1] nor within the scan width. *)
Lemma add_rank_exceeds_scan_width :
  add_rank 0 4 = 33
  ∧ ¬ (1 ≤ add_rank 0 4 ≤ 4 + 1 ∨ (Z.land 0 (Z.ones 4) = 0 ∧ add_rank 0 4 ≤ bits)).
Proof.
  assert (H : add_rank 0 4 = 33) by (vm_compute; reflexivity).
  split; [exact H|]. rewrite H. unfold bits. lia.
Qed.

(** ** Monotonicity *)

(** C5: over any sequence of successful [hll_add] and [hll_merge] calls, no
    register of any estimator decreases. *)
Theorem registers_monotone {element : Type} (h h' : heap) :
  rtc (hll_step (element := element)) h h' → heap_le h h'.
Proof.
  induction 1 as [h|h1 h2 h3 Hstep _ IH]; [apply heap_le_refl|].
  eapply heap_le_trans; [|exact IH].
  destruct Hstep as [hll e n h2 Hadd|d s h2 Hmerge].
  - eapply hll_add_heap_le, Hadd.
  - eapply hll_merge_heap_le, Hmerge.
Qed.

Lemma registers_monotone_witness :
  heap_le {[ 0%nat := replicate 16 0 ]} {[ 0%nat := <[0%nat := 1]> (replicate 16 0) ]}.
Proof.
  apply (registers_monotone (element := Z)).
  eapply rtc_l; [|apply rtc_refl].
  apply (step_add _ (Some (mk_hll (Addr 0) 4 (Some (λ x _ : Z, x)))) 5 4).
  vm_compute. reflexivity.
Defined.

(** ** [hll_merge] *)

(** C6: for initialized [dest] and [src], [hll_merge] returns [HLL_OK];
    afterwards every destination register below
    [min(2^dest.precision, 2^src.precision)] holds the maximum of the two
    old registers at its index, every other destination register is
    unchanged, the source array is what it was, and so is every other
    block. The two handles may designate the same array. *)
Theorem merge_spec {element : Type} (h : heap) (d s : hll_t element)
    ad as_ rd rs :
  initialized h d ad rd → initialized h s as_ rs →
  let n := Z.min (2 ^ precision d) (2 ^ precision s) in
  ∃ h' rd',
    hll_merge h (Some d) (Some s) = Some (HLL_OK, h')
    ∧ h' !! ad = Some rd' ∧ length rd' = length rd
    ∧ (∀ (i : nat) x y, Z.of_nat i < n → rd !! i = Some x → rs !! i = Some y →
         rd' !! i = Some (Z.max x y))
    ∧ (∀ i : nat, n ≤ Z.of_nat i → rd' !! i = rd !! i)
    ∧ h' !! as_ = Some rs
    ∧ (∀ b, b ≠ ad → h' !! b = h !! b).
Proof.
  intros [Hpd Hld Hprd Hlend] [Hps Hls Hprs Hlens] n.
  assert (Hn : 0 ≤ n) by (subst n; apply Z.min_glb; apply Z.pow_nonneg; lia).
  assert (Hnd : (Z.to_nat n ≤ length rd)%nat) by lia.
  assert (Hns : (Z.to_nat n ≤ length rs)%nat) by lia.
  unfold hll_merge. rewrite Hpd, Hps.
  rewrite !shl1_precision by assumption. fold n.
  replace (seqZ 0 n) with (seqZ 0 (Z.of_nat (Z.to_nat n)))
    by (now rewrite Z2Nat.id).
  destruct (decide (ad = as_)) as [<-|Hne].
  - rewrite Hld in Hls. injection Hls as <-.
    rewrite (merge_loop_aliased h ad rd) by assumption.
    exists h, rd. cbn [mbind option_bind]. repeat split; try done.
    intros i x y _ Hx Hy. rewrite Hx in Hy. injection Hy as <-.
    rewrite Hx. f_equal. lia.
  - rewrite (merge_loop_distinct h ad as_ rd rs) by assumption.
    exists (<[ad := merge_regs (Z.to_nat n) rd rs]> h), (merge_regs (Z.to_nat n) rd rs).
    cbn [mbind option_bind]. repeat split.
    + apply lookup_insert_eq.
    + now apply length_merge_regs.
    + intros i x y Hi Hx Hy. rewrite <- hll_max_spec.
      apply merge_regs_lookup_lt; [lia|assumption..].
    + intros i Hi. apply merge_regs_lookup_ge; [assumption..|lia].
    + now rewrite lookup_insert_ne.
    + intros b Hb. now rewrite lookup_insert_ne.
Qed.

Lemma merge_spec_witness :
  ∃ h' rd',
    hll_merge {[ 0%nat := replicate 16 1; 1%nat := replicate 16 3 ]}
      (Some (mk_hll (element := Z) (Addr 0) 4 None))
      (Some (mk_hll (element := Z) (Addr 1) 4 None))
    = Some (HLL_OK, h')
    ∧ h' !! 0%nat = Some rd'
    ∧ rd' !! 2%nat = Some 3
    ∧ h' !! 1%nat = Some (replicate 16 3).
Proof.
  destruct (merge_spec (element := Z)
              {[ 0%nat := replicate 16 1; 1%nat := replicate 16 3 ]}
              (mk_hll (Addr 0) 4 None) (mk_hll (Addr 1) 4 None)
              0%nat 1%nat (replicate 16 1) (replicate 16 3))
    as (h' & rd' & Hm & Hd & _ & Hmax & _ & Hs & _).
  - split; cbn; try reflexivity. unfold HLL_PRECISION_MIN, HLL_PRECISION_MAX; lia.
  - split; cbn; try reflexivity. unfold HLL_PRECISION_MIN, HLL_PRECISION_MAX; lia.
  - exists h', rd'. repeat split; try assumption.
    apply (Hmax 2%nat 1 3); cbn; [lia|reflexivity|reflexivity].
Defined.

(** ** Errors and state *)

(** C7, as amended: [_hll_init_impl] copies the settings into the
    destination before it validates the precision. Called with settings
    whose precision is outside [4,16] it returns
    [HLL_ERROR_INVALID_PRECISION], allocates nothing, and leaves in the
    destination the fields of the settings (register pointer, precision and
    hash). [hll_add], [hll_merge] and [hll_destroy] report their errors
    before they write anything; [hll_count] never writes. *)
Theorem init_invalid_precision {element : Type} alloc (h : heap)
    (s0 src : hll_t element) :
  precision src < HLL_PRECISION_MIN ∨ HLL_PRECISION_MAX < precision src →
  _hll_init_impl alloc h (Some s0) (Some src)
  = (HLL_ERROR_INVALID_PRECISION, Some src, h)
  ∧ (∀ (hll : option (hll_t element)) e n err h',
       hll_add h hll e n = Some (err, h') → err ≠ HLL_OK → h' = h)
  ∧ (∀ (d s : option (hll_t element)) err h',
       hll_merge h d s = Some (err, h') → err ≠ HLL_OK → h' = h)
  ∧ (∀ (hll : option (hll_t element)) err h',
       hll_destroy h hll = Some (err, h') → err ≠ HLL_OK → h' = h).
Proof.
  intros Hp. repeat split.
  - unfold _hll_init_impl.
    destruct (Z.ltb_spec (precision src) HLL_PRECISION_MIN) as [|Hge];
      [reflexivity|].
    destruct (Z.gtb_spec (precision src) HLL_PRECISION_MAX) as [|Hle];
      [reflexivity|]. lia.
  - intros hll e n err h'. unfold hll_add.
    destruct hll as [s|]; [|now intros [= _ <-]].
    destruct (_registers s); [now intros [= _ <-]|].
    destruct (hash s); cbn [mbind option_bind]; [|discriminate].
    destruct (load _ _ _); cbn [mbind option_bind]; [|discriminate].
    destruct (store _ _ _ _); cbn [mbind option_bind]; [|discriminate].
    intros [= <- _] Herr. now destruct Herr.
  - intros d s err h'. unfold hll_merge.
    destruct d as [d|], s as [s|]; try (now intros [= _ <-]).
    destruct (_registers d), (_registers s); try (now intros [= _ <-]).
    destruct (for_each _ _ _); cbn [mbind option_bind]; [|discriminate].
    intros [= <- _] Herr. now destruct Herr.
  - intros hll err h'. unfold hll_destroy.
    destruct hll as [s|]; [|now intros [= _ <-]].
    destruct (_registers s); [now intros [= _ <-]|].
    destruct (free _ _); cbn [mbind option_bind]; [|discriminate].
    intros [= <- _] Herr. now destruct Herr.
Qed.

Lemma init_invalid_precision_witness :
  _hll_init_impl (Addr 1) {[ 0%nat := replicate 1024 0 ]}
    (Some (mk_hll (element := Z) (Addr 0) 10 None)) (Some (mk_hll NULL 17 None))
  = (HLL_ERROR_INVALID_PRECISION, Some (mk_hll NULL 17 None),
     {[ 0%nat := replicate 1024 0 ]}).
Proof.
  apply (init_invalid_precision (element := Z) (Addr 1)
           {[ 0%nat := replicate 1024 0 ]} (mk_hll (Addr 0) 10 None)
           (mk_hll NULL 17 None)).
  right. unfold HLL_PRECISION_MAX. cbn. lia.
Defined.

(** C7, as stated, fails: a call of [hll_init] with precision 3 on an
    estimator initialized at precision 10 returns
    [HLL_ERROR_INVALID_PRECISION], and the destination is no longer what it
    was: its precision is 3 and its register pointer is null. *)
Lemma init_invalid_precision_overwrites :
  let dest := mk_hll (element := Z) (Addr 0) 10 (Some (λ x _, x)) in
  let h : heap := {[ 0%nat := replicate 1024 0 ]} in
  ¬ (hll_init (Addr 1) h (Some dest) 3 (Some (λ x _, x))
     = (HLL_ERROR_INVALID_PRECISION, Some dest, h)).
Proof. cbn. intros [= ]. Qed.

(** C8: [hll_destroy] releases the array and leaves the pointer in the
    handle. A second call on the same handle finds a pointer that is not
    null, passes the guard and releases the block again, which is
    undefined: it does not return [HLL_ERROR_HLL_UNINITIALIZED]. Only a
    handle whose pointer is null gets that answer. *)
Theorem destroy_twice {element : Type} (h : heap) (s : hll_t element) a regs :
  _registers s = Addr a → h !! a = Some regs →
  hll_destroy h (Some s) = Some (HLL_OK, delete a h)
  ∧ hll_destroy (delete a h) (Some s) = None
  ∧ hll_destroy (delete a h) (Some s)
    ≠ Some (HLL_ERROR_HLL_UNINITIALIZED, delete a h)
  ∧ hll_destroy h (Some (mk_hll NULL (precision s) (hash s)))
    = Some (HLL_ERROR_HLL_UNINITIALIZED, h).
Proof.
  intros Hptr Hlive.
  assert (H2 : hll_destroy (delete a h) (Some s) = None).
  { unfold hll_destroy, free. rewrite Hptr, lookup_delete_eq. reflexivity. }
  repeat split.
  - unfold hll_destroy, free. rewrite Hptr, Hlive. reflexivity.
  - exact H2.
  - rewrite H2. discriminate.
Qed.

Lemma destroy_twice_witness :
  ∃ s h0 h1,
    hll_init (Addr 0) ∅ (Some (mk_hll NULL 0 None)) 4 (Some (λ x _ : Z, x))
    = (HLL_OK, Some s, h0)
    ∧ hll_destroy h0 (Some s) = Some (HLL_OK, h1)
    ∧ hll_destroy h1 (Some s) = None.
Proof.
  eexists _, _, _. split; [reflexivity|].
  pose proof (destroy_twice (element := Z)
    (<[0%nat := replicate (Z.to_nat (shl1 4)) 0]> ∅)
    (mk_hll (Addr 0) 4 (Some (λ x _ : Z, x))) 0%nat
    (replicate (Z.to_nat (shl1 4)) 0) eq_refl (lookup_insert_eq _ _ _)) as (H1 & H2 & _).
  split; [exact H1|exact H2].
Defined.

(** ** Order of additions *)

(** C9: for a fixed hash function and precision, the additions of two
    sequences that are permutations of each other, each to a freshly
    initialized estimator, all succeed and end with the same register
    contents. *)
Theorem add_order_independent {element : Type} alloc (h : heap)
    (s0 : hll_t element) p f (l1 l2 : list (element * Z)) :
  HLL_PRECISION_MIN ≤ p ≤ HLL_PRECISION_MAX → Permutation l1 l2 →
  ∃ s h0 regs,
    hll_init (Addr alloc) h (Some s0) p (Some f) = (HLL_OK, Some s, h0)
    ∧ add_all h0 (Some s) l1
      = Some (replicate (length l1) HLL_OK, <[alloc := regs]> h0)
    ∧ add_all h0 (Some s) l2
      = Some (replicate (length l2) HLL_OK, <[alloc := regs]> h0).
Proof.
  intros Hp Hperm.
  pose proof (init_initialized alloc h p (Some f) Hp) as Hinit.
  eexists _, _, _. split; [apply init_ok, Hp|].
  rewrite (add_all_ok l1 _ _ _ _ f Hinit eq_refl).
  rewrite (add_all_ok l2 _ _ _ _ f Hinit eq_refl).
  cbn [precision]. rewrite (regs_after_perm p f l1 l2 Hperm). split; reflexivity.
Qed.

Lemma add_order_independent_witness :
  ∃ s h0 regs,
    hll_init (Addr 0) ∅ (Some (mk_hll NULL 0 None)) 4 (Some (λ x _ : Z, x))
    = (HLL_OK, Some s, h0)
    ∧ add_all h0 (Some s) [(5, 4); (4026531844, 4)]
      = Some (replicate 2 HLL_OK, <[0%nat := regs]> h0)
    ∧ add_all h0 (Some s) [(4026531844, 4); (5, 4)]
      = Some (replicate 2 HLL_OK, <[0%nat := regs]> h0).
Proof.
  apply (add_order_independent 0%nat ∅ (mk_hll NULL 0 None) 4 (λ x _ : Z, x)
           [(5, 4); (4026531844, 4)] [(4026531844, 4); (5, 4)]).
  - unfold HLL_PRECISION_MIN, HLL_PRECISION_MAX; lia.
  - apply perm_swap.
Defined.

(** ** Register index *)

(** C10: for a 32-bit hash value and a precision in [4,16], the index that
    [hll_add] computes, [(h & ~((1 << (32-p)) - 1)) >> (32-p)], is below
    [2^p]: the slot it designates exists in every array of [2^p] registers. *)
Theorem add_index_in_bounds (h p : Z) :
  0 ≤ h < 2 ^ 32 → HLL_PRECISION_MIN ≤ p ≤ HLL_PRECISION_MAX →
  add_index h p = Z.shiftr (Z.land h (not32 (shl1 (32 - p) - 1))) (32 - p)
  ∧ 0 ≤ add_index h p < 2 ^ p
  ∧ ∀ regs : list Z, Z.of_nat (length regs) = 2 ^ p →
      is_Some (regs !! Z.to_nat (add_index h p)).
Proof.
  unfold HLL_PRECISION_MIN, HLL_PRECISION_MAX. intros Hh Hp.
  pose proof (add_index_range h p Hh ltac:(lia)) as Hr.
  split; [|split; [exact Hr|]].
  - unfold add_index, bits. now rewrite (wrap32_small (32 - p)) by lia.
  - intros regs Hlen. apply lookup_lt_is_Some_2. lia.
Qed.

Lemma add_index_in_bounds_witness :
  0 ≤ add_index 4294967295 4 < 2 ^ 4.
Proof.
  apply (add_index_in_bounds 4294967295 4);
    unfold HLL_PRECISION_MIN, HLL_PRECISION_MAX; lia.
Defined.

(** * Part V: further properties *)

(** ** Construction and release *)

Section Lifecycle.

Context {element : Type}.

Lemma init_alloc_failure (h : heap) (s0 : hll_t element) p f :
  HLL_PRECISION_MIN ≤ p ≤ HLL_PRECISION_MAX →
  hll_init NULL h (Some s0) p f
  = (HLL_ERROR_ALLOCATING_MEMORY, Some (mk_hll NULL p f), h).
Proof.
  intros Hp. unfold hll_init, _hll_init_impl. cbn [precision hash].
  replace (p <? HLL_PRECISION_MIN) with false by (symmetry; apply Z.ltb_ge; lia).
  replace (p >? HLL_PRECISION_MAX) with false
    by (symmetry; rewrite Z.gtb_ltb; apply Z.ltb_ge; lia).
  reflexivity.
Qed.

Lemma destroy_ok (h : heap) (s : hll_t element) a regs :
  _registers s = Addr a → h !! a = Some regs →
  hll_destroy h (Some s) = Some (HLL_OK, delete a h).
Proof.
  intros Hptr Hlive. unfold hll_destroy, free. now rewrite Hptr, Hlive.
Qed.

(** Reading the first register of a block that is not live. *)
Lemma for_each_first_fails {S : Type} (n : Z) (body : Z → S → option S) s :
  0 < n → body 0 s = None → for_each (seqZ 0 n) body s = None.
Proof.
  intros Hn Hb. rewrite seqZ_cons by lia. cbn [for_each]. now rewrite Hb.
Qed.

Lemma load_dangling (h : heap) a i : h !! a = None → load h (Addr a) i = None.
Proof. intros Hl. unfold load. now rewrite Hl. Qed.

End Lifecycle.

(** X1: with a precision in range and an allocation that succeeds,
    initialization returns [HLL_OK]; the handle holds the precision and the
    hash function it was given, its array has [2^precision] registers, all
    zero, and no other block of the heap changes. *)
Theorem init_success {element : Type} alloc (h : heap) (s0 : hll_t element) p f :
  HLL_PRECISION_MIN ≤ p ≤ HLL_PRECISION_MAX →
  ∃ s h' regs,
    hll_init (Addr alloc) h (Some s0) p f = (HLL_OK, Some s, h')
    ∧ precision s = p ∧ hash s = f
    ∧ initialized h' s alloc regs
    ∧ Z.of_nat (length regs) = 2 ^ p
    ∧ Forall (λ r, r = 0) regs
    ∧ ∀ b, b ≠ alloc → h' !! b = h !! b.
Proof.
  intros Hp.
  exists (mk_hll (Addr alloc) p f), (<[alloc := replicate (Z.to_nat (2 ^ p)) 0]> h),
    (replicate (Z.to_nat (2 ^ p)) 0).
  split; [apply init_ok, Hp|]. split; [reflexivity|]. split; [reflexivity|].
  split; [apply init_initialized, Hp|].
  split; [apply (init_len _ _ _ _ (init_initialized alloc h p f Hp))|].
  split; [apply Forall_replicate; reflexivity|].
  intros b Hb. now rewrite lookup_insert_ne.
Qed.

Lemma init_success_witness :
  ∃ s h' regs,
    hll_init (Addr 0) ∅ (Some blank) 10 (Some id_hash) = (HLL_OK, Some s, h')
    ∧ precision s = 10 ∧ hash s = Some id_hash
    ∧ initialized h' s 0%nat regs
    ∧ Z.of_nat (length regs) = 2 ^ 10
    ∧ Forall (λ r, r = 0) regs
    ∧ ∀ b, b ≠ 0%nat → h' !! b = (∅ : heap) !! b.
Proof.
  apply (init_success 0%nat ∅ blank 10 (Some id_hash)).
  unfold HLL_PRECISION_MIN, HLL_PRECISION_MAX. lia.
Defined.

(** X2: when the allocation fails, initialization returns
    [HLL_ERROR_ALLOCATING_MEMORY] and the heap is what it was; the handle is
    left with a null register pointer, so that [hll_destroy], [hll_add],
    [hll_count] and [hll_merge] on it answer
    [HLL_ERROR_HLL_UNINITIALIZED] and touch nothing. *)
Theorem init_allocation_failure {element : Type} (h : heap)
    (s0 : hll_t element) p f :
  HLL_PRECISION_MIN ≤ p ≤ HLL_PRECISION_MAX →
  ∃ s,
    hll_init NULL h (Some s0) p f = (HLL_ERROR_ALLOCATING_MEMORY, Some s, h)
    ∧ hll_destroy h (Some s) = Some (HLL_ERROR_HLL_UNINITIALIZED, h)
    ∧ (∀ e n, hll_add h (Some s) e n = Some (HLL_ERROR_HLL_UNINITIALIZED, h))
    ∧ (∀ powf logf,
         hll_count powf logf h (Some s) = Some HLL_ERROR_HLL_UNINITIALIZED)
    ∧ (∀ other, hll_merge h (Some s) (Some other)
                = Some (HLL_ERROR_HLL_UNINITIALIZED, h))
    ∧ (∀ other, hll_merge h (Some other) (Some s)
                = Some (HLL_ERROR_HLL_UNINITIALIZED, h)).
Proof.
  intros Hp. exists (mk_hll NULL p f).
  split; [apply init_alloc_failure, Hp|].
  repeat lazymatch goal with |- _ ∧ _ => split end; try reflexivity.
  intros other. unfold hll_merge. cbn [_registers].
  now destruct (_registers other).
Qed.

Lemma init_allocation_failure_witness :
  ∃ s,
    hll_init NULL ∅ (Some blank) 10 (Some id_hash)
    = (HLL_ERROR_ALLOCATING_MEMORY, Some s, ∅)
    ∧ hll_destroy ∅ (Some s) = Some (HLL_ERROR_HLL_UNINITIALIZED, ∅).
Proof.
  destruct (init_allocation_failure (element := Z) ∅ blank 10 (Some id_hash))
    as (s & H1 & H2 & _).
  - unfold HLL_PRECISION_MIN, HLL_PRECISION_MAX. lia.
  - exists s. split; assumption.
Defined.

(** X3: initialization of a handle that is already initialized does not
    release its array: the new array is a second block, the old block stays
    allocated with its contents, and the handle no longer designates it. *)
Theorem init_again_keeps_old_block {element : Type} (h : heap)
    (s : hll_t element) a regs alloc p f :
  initialized h s a regs → alloc ≠ a →
  HLL_PRECISION_MIN ≤ p ≤ HLL_PRECISION_MAX →
  ∃ s' h',
    hll_init (Addr alloc) h (Some s) p f = (HLL_OK, Some s', h')
    ∧ _registers s' = Addr alloc
    ∧ h' !! a = Some regs
    ∧ ∃ h'', hll_destroy h' (Some s') = Some (HLL_OK, h'')
             ∧ h'' !! a = Some regs.
Proof.
  intros Hinit Hne Hp.
  exists (mk_hll (Addr alloc) p f), (<[alloc := replicate (Z.to_nat (2 ^ p)) 0]> h).
  split; [apply init_ok, Hp|]. split; [reflexivity|].
  assert (Ha : (<[alloc := replicate (Z.to_nat (2 ^ p)) 0]> h) !! a = Some regs).
  { rewrite lookup_insert_ne by exact Hne. apply Hinit. }
  split; [exact Ha|].
  eexists. split.
  - apply (destroy_ok _ _ alloc (replicate (Z.to_nat (2 ^ p)) 0));
      [reflexivity|apply lookup_insert_eq].
  - rewrite lookup_delete_ne by exact Hne. exact Ha.
Qed.

Lemma init_again_keeps_old_block_witness :
  ∃ s' h',
    hll_init (Addr 1) {[ 0%nat := replicate 16 3 ]}
      (Some (mk_hll (Addr 0) 4 (Some id_hash))) 4 (Some id_hash)
    = (HLL_OK, Some s', h')
    ∧ _registers s' = Addr 1
    ∧ h' !! 0%nat = Some (replicate 16 3).
Proof.
  destruct (init_again_keeps_old_block (element := Z)
              {[ 0%nat := replicate 16 3 ]} (mk_hll (Addr 0) 4 (Some id_hash))
              0%nat (replicate 16 3) 1%nat 4 (Some id_hash))
    as (s' & h' & H1 & H2 & H3 & _).
  - split; [reflexivity|reflexivity| |reflexivity].
    unfold HLL_PRECISION_MIN, HLL_PRECISION_MAX. cbn. lia.
  - discriminate.
  - unfold HLL_PRECISION_MIN, HLL_PRECISION_MAX. lia.
  - exists s', h'. repeat split; assumption.
Defined.

(** X4: [hll_init2] sets no hash function. After a successful
    [hll_init2] every [hll_add] calls a null function pointer, which is
    undefined; [hll_destroy] still releases the array. *)
Theorem init2_add_undefined {element : Type} a (h : heap)
    (s0 : hll_t element) p :
  HLL_PRECISION_MIN ≤ p ≤ HLL_PRECISION_MAX →
  ∃ s h',
    hll_init2 (Addr a) h (Some s0) p = (HLL_OK, Some s, h')
    ∧ hash s = None
    ∧ (∀ e n, hll_add h' (Some s) e n = None)
    ∧ hll_destroy h' (Some s) = Some (HLL_OK, delete a h').
Proof.
  intros Hp.
  exists (mk_hll (Addr a) p None), (<[a := replicate (Z.to_nat (2 ^ p)) 0]> h).
  split; [apply (init_ok a h s0 p None), Hp|]. split; [reflexivity|].
  split; [reflexivity|].
  apply (destroy_ok _ _ a (replicate (Z.to_nat (2 ^ p)) 0));
    [reflexivity|apply lookup_insert_eq].
Qed.

Lemma init2_add_undefined_witness :
  ∃ s h',
    hll_init2 (Addr 0) ∅ (Some blank) 10 = (HLL_OK, Some s, h')
    ∧ hash s = None
    ∧ hll_add h' (Some s) 7 4 = None.
Proof.
  destruct (init2_add_undefined (element := Z) 0%nat ∅ blank 10)
    as (s & h' & H1 & H2 & H3 & _).
  - unfold HLL_PRECISION_MIN, HLL_PRECISION_MAX. lia.
  - exists s, h'. repeat split; try assumption. apply H3.
Defined.


(** X5: on a heap where the address is free, initialization, any sequence
    of additions and the release all return [HLL_OK], and the heap after
    the release is the heap before the initialization: the array is the
    only allocation, and it is released. *)
Theorem init_add_destroy_restores_heap {element : Type} a (h : heap)
    (s0 : hll_t element) p f (l : list (element * Z)) :
  h !! a = None → HLL_PRECISION_MIN ≤ p ≤ HLL_PRECISION_MAX →
  ∃ s h0 h1,
    hll_init (Addr a) h (Some s0) p (Some f) = (HLL_OK, Some s, h0)
    ∧ add_all h0 (Some s) l = Some (replicate (length l) HLL_OK, h1)
    ∧ hll_destroy h1 (Some s) = Some (HLL_OK, h).
Proof.
  intros Hfree Hp.
  pose proof (init_initialized a h p (Some f) Hp) as Hinit.
  eexists _, _, _. split; [apply init_ok, Hp|].
  split; [apply (add_all_ok l _ _ _ _ f Hinit eq_refl)|].
  rewrite insert_insert_eq.
  erewrite destroy_ok; [|reflexivity|apply lookup_insert_eq].
  now rewrite delete_insert_id by exact Hfree.
Qed.

Lemma init_add_destroy_restores_heap_witness :
  ∃ s h0 h1,
    hll_init (Addr 0) ∅ (Some blank) 4 (Some id_hash) = (HLL_OK, Some s, h0)
    ∧ add_all h0 (Some s) rank3_elements = Some (replicate 16 HLL_OK, h1)
    ∧ hll_destroy h1 (Some s) = Some (HLL_OK, ∅).
Proof.
  apply (init_add_destroy_restores_heap 0%nat ∅ blank 4 id_hash rank3_elements).
  - reflexivity.
  - unfold HLL_PRECISION_MIN, HLL_PRECISION_MAX. lia.
Defined.

(** X6: after [hll_destroy] the handle still holds the pointer to the
    released array: [hll_add], [hll_count] and [hll_merge] on it pass their
    guard and read the released block, which is undefined; none of them
    answers [HLL_ERROR_HLL_UNINITIALIZED]. *)
Theorem use_after_destroy {element : Type} (h : heap) (s : hll_t element)
    a regs :
  initialized h s a regs →
  ∃ h',
    hll_destroy h (Some s) = Some (HLL_OK, h')
    ∧ (∀ e n, hll_add h' (Some s) e n = None)
    ∧ (∀ powf logf, hll_count powf logf h' (Some s) = None)
    ∧ hll_merge h' (Some s) (Some s) = None.
Proof.
  intros [Hptr Hlive Hprec Hlen]. exists (delete a h).
  assert (Hgone : delete a h !! a = None) by apply lookup_delete_eq.
  assert (Hm : 16 ≤ shl1 (precision s) < 2 ^ 32).
  { rewrite shl1_precision by assumption.
    unfold HLL_PRECISION_MIN, HLL_PRECISION_MAX in Hprec.
    split; [change 16 with (2 ^ 4); apply Z.pow_le_mono_r; lia|].
    apply pow2_lt_32. lia. }
  split; [apply (destroy_ok h s a regs Hptr Hlive)|].
  split; [|split].
  - intros e n. unfold hll_add. rewrite Hptr.
    destruct (hash s); cbn [mbind option_bind]; [|reflexivity].
    now rewrite load_dangling.
  - intros powf logf. unfold hll_count. rewrite Hptr.
    unfold count_sum. rewrite for_each_first_fails; [reflexivity| |].
    + rewrite wrap32_small; lia.
    + unfold sum_body. now rewrite load_dangling.
  - unfold hll_merge. rewrite Hptr.
    rewrite for_each_first_fails; [reflexivity|lia|].
    unfold merge_body. now rewrite load_dangling.
Qed.

Lemma use_after_destroy_witness :
  ∃ h',
    hll_destroy {[ 0%nat := replicate 16 3 ]}
      (Some (mk_hll (Addr 0) 4 (Some id_hash))) = Some (HLL_OK, h')
    ∧ hll_add h' (Some (mk_hll (Addr 0) 4 (Some id_hash))) 5 4 = None.
Proof.
  destruct (use_after_destroy (element := Z) {[ 0%nat := replicate 16 3 ]}
              (mk_hll (Addr 0) 4 (Some id_hash)) 0%nat (replicate 16 3))
    as (h' & H1 & H2 & _).
  - split; [reflexivity|reflexivity| |reflexivity].
    unfold HLL_PRECISION_MIN, HLL_PRECISION_MAX. cbn. lia.
  - exists h'. split; [exact H1|apply H2].
Defined.

(** X7: every code that initialization, release, addition and merge
    return is one of the five codes of the header; [hll_error_string]
    gives each of the five a name of its own, none of them
    ["HLL_ERROR_UNKNOWN"], and the name is ["HLL_OK"] exactly for
    [HLL_OK]. *)
Theorem returned_codes_have_names {element : Type} (err : hll_error) :
  returned_code (element := element) err →
  err ∈ [HLL_OK; HLL_ERROR_HLL_NULL; HLL_ERROR_INVALID_PRECISION;
         HLL_ERROR_HLL_UNINITIALIZED; HLL_ERROR_ALLOCATING_MEMORY]
  ∧ hll_error_string err ≠ "HLL_ERROR_UNKNOWN"
  ∧ (hll_error_string err = "HLL_OK" ↔ err = HLL_OK)
  ∧ ∀ err', returned_code (element := element) err' →
      hll_error_string err = hll_error_string err' → err = err'.
Proof.
  assert (Hknown : ∀ e, returned_code (element := element) e →
            e ∈ [HLL_OK; HLL_ERROR_HLL_NULL; HLL_ERROR_INVALID_PRECISION;
                 HLL_ERROR_HLL_UNINITIALIZED; HLL_ERROR_ALLOCATING_MEMORY]).
  { assert (Hinit : ∀ alloc (h : heap) (hll src : option (hll_t element)),
              (_hll_init_impl alloc h hll src).1.1
              ∈ [HLL_OK; HLL_ERROR_HLL_NULL; HLL_ERROR_INVALID_PRECISION;
                 HLL_ERROR_HLL_UNINITIALIZED; HLL_ERROR_ALLOCATING_MEMORY]).
    { intros alloc h hll src. unfold _hll_init_impl.
      destruct hll as [s0|]; [|set_solver].
      destruct (_ || _); [set_solver|].
      destruct alloc; cbn; set_solver. }
    intros e [alloc h hll src|alloc h hll p|h hll e' h' H|h hll x n e' h' H
             |h d s e' h' H].
    - apply Hinit.
    - apply Hinit.
    - unfold hll_destroy in H. destruct hll as [s|]; [|injection H as <- _; set_solver].
      destruct (_registers s); [injection H as <- _; set_solver|].
      destruct (free _ _); cbn in H; [|discriminate].
      injection H as <- _. set_solver.
    - unfold hll_add in H. destruct hll as [s|]; [|injection H as <- _; set_solver].
      destruct (_registers s); [injection H as <- _; set_solver|].
      destruct (hash s); cbn [mbind option_bind] in H; [|discriminate].
      destruct (load _ _ _); cbn [mbind option_bind] in H; [|discriminate].
      destruct (store _ _ _ _); cbn [mbind option_bind] in H; [|discriminate].
      injection H as <- _. set_solver.
    - unfold hll_merge in H.
      destruct d as [d|], s as [s|]; try (injection H as <- _; set_solver).
      destruct (_registers d), (_registers s);
        try (injection H as <- _; set_solver).
      destruct (for_each _ _ _); cbn [mbind option_bind] in H; [|discriminate].
      injection H as <- _. set_solver. }
  assert (Hcases : ∀ e,
            e ∈ [HLL_OK; HLL_ERROR_HLL_NULL; HLL_ERROR_INVALID_PRECISION;
                 HLL_ERROR_HLL_UNINITIALIZED; HLL_ERROR_ALLOCATING_MEMORY] →
            e = 0 ∨ e = -1 ∨ e = -2 ∨ e = -3 ∨ e = -4).
  { intros e He. repeat (apply elem_of_cons in He as [->|He]; [tauto|]).
    inversion He. }
  intros Hret. pose proof (Hcases _ (Hknown _ Hret)) as Hc.
  split; [apply Hknown, Hret|].
  split; [destruct Hc as [->|[->|[->|[->| ->]]]]; discriminate|].
  split.
  - destruct Hc as [->|[->|[->|[->| ->]]]]; split; try reflexivity;
      intros [=].
  - intros err' Hret'. pose proof (Hcases _ (Hknown _ Hret')) as Hc'.
    destruct Hc as [->|[->|[->|[->| ->]]]], Hc' as [->|[->|[->|[->| ->]]]];
      try reflexivity; intros [=].
Qed.

Lemma returned_codes_have_names_witness :
  hll_error_string HLL_ERROR_INVALID_PRECISION ≠ "HLL_ERROR_UNKNOWN".
Proof.
  apply (returned_codes_have_names (element := Z) HLL_ERROR_INVALID_PRECISION).
  exact (code_init (Addr 0) ∅ (Some blank) (Some (mk_hll NULL 3 None))).
Defined.


(** ** Additions *)

Section AddFacts.

Lemma add_regs_idem p hv regs :
  add_regs p hv (add_regs p hv regs) = add_regs p hv regs.
Proof.
  unfold add_regs. rewrite list_alter_alter_eq.
  apply list_alter_ext; [|reflexivity].
  intros old _. cbn. rewrite !hll_max_spec. lia.
Qed.

(** The scan returns at most the scan width, whatever the precision. *)
Lemma add_rank_any_precision hv p : rank_value (add_rank hv p).
Proof.
  unfold add_rank, hll_get_hash_zeros, rank_value.
  pose proof (zeros_scan_spec (Z.to_nat bits)
                (Z.land hv (wrap32 (shl1 p - 1))) 0 0 ltac:(lia)
                ltac:(unfold bits; lia)) as (Hz & _).
  rewrite Z.sub_0_r in Hz. unfold bits in *.
  rewrite wrap32_small; lia.
Qed.

Lemma store_heap_ranks (h h' : heap) p i v :
  store h p i v = Some h' → rank_value v → heap_ranks h → heap_ranks h'.
Proof.
  intros Hstore Hv Hh.
  destruct (store_inv _ _ _ _ _ Hstore) as (a & regs & -> & Hlive & _ & ->).
  intros b rb. destruct (decide (a = b)) as [<-|Hne].
  - rewrite lookup_insert_eq. intros [= <-].
    apply Forall_insert; [apply (Hh a), Hlive|exact Hv].
  - rewrite lookup_insert_ne by exact Hne. apply Hh.
Qed.

Lemma load_heap_ranks (h : heap) p i v :
  load h p i = Some v → heap_ranks h → rank_value v.
Proof.
  intros Hload Hh.
  destruct (load_inv _ _ _ _ Hload) as (a & regs & -> & Hlive & _ & Hv).
  eapply Forall_lookup_1; [apply (Hh a), Hlive|exact Hv].
Qed.

End AddFacts.

(** X8: a second addition of an element changes nothing: on an
    initialized estimator with a hash function both calls return [HLL_OK]
    and the heap after the second is the heap after the first. *)
Theorem add_twice {element : Type} (h : heap) (s : hll_t element)
    a regs f e n :
  initialized h s a regs → hash s = Some f →
  ∃ h1, hll_add h (Some s) e n = Some (HLL_OK, h1)
        ∧ hll_add h1 (Some s) e n = Some (HLL_OK, h1).
Proof.
  intros Hinit Hf. eexists. split; [apply (hll_add_ok h s a regs f e n Hinit Hf)|].
  rewrite (hll_add_ok _ s a _ f e n (add_initialized h s a regs _ Hinit) Hf).
  now rewrite insert_insert_eq, add_regs_idem.
Qed.

Lemma add_twice_witness :
  ∃ h1, hll_add {[ 0%nat := replicate 16 0 ]}
          (Some (mk_hll (Addr 0) 4 (Some id_hash))) 5 4 = Some (HLL_OK, h1)
        ∧ hll_add h1 (Some (mk_hll (Addr 0) 4 (Some id_hash))) 5 4
          = Some (HLL_OK, h1).
Proof.
  apply (add_twice (element := Z) {[ 0%nat := replicate 16 0 ]}
           (mk_hll (Addr 0) 4 (Some id_hash)) 0%nat (replicate 16 0) id_hash 5 4).
  - split; [reflexivity|reflexivity| |reflexivity].
    unfold HLL_PRECISION_MIN, HLL_PRECISION_MAX. cbn. lia.
  - reflexivity.
Defined.

(** X9: an addition reads the top [p] bits and the low [p] bits of the
    hash and nothing else: two hash values that agree on both select the
    same register and carry the same run statistic, so that the [32 - 2p]
    bits in between never reach the estimator. *)
Theorem add_reads_two_bit_fields (h1 h2 p : Z) :
  0 ≤ h1 < 2 ^ 32 → 0 ≤ h2 < 2 ^ 32 →
  HLL_PRECISION_MIN ≤ p ≤ HLL_PRECISION_MAX →
  h1 / 2 ^ (32 - p) = h2 / 2 ^ (32 - p) → h1 mod 2 ^ p = h2 mod 2 ^ p →
  add_index h1 p = add_index h2 p
  ∧ add_rank h1 p = add_rank h2 p
  ∧ ∀ regs, add_regs p h1 regs = add_regs p h2 regs.
Proof.
  unfold HLL_PRECISION_MIN, HLL_PRECISION_MAX. intros Hh1 Hh2 Hp Htop Hlow.
  assert (Hidx : add_index h1 p = add_index h2 p)
    by (rewrite !add_index_eq by lia; exact Htop).
  assert (Hrank : add_rank h1 p = add_rank h2 p).
  { unfold add_rank, hll_get_hash_zeros.
    now rewrite !head_eq, Hlow by lia. }
  split; [exact Hidx|]. split; [exact Hrank|].
  intros regs. unfold add_regs. now rewrite Hidx, Hrank.
Qed.

Lemma add_reads_two_bit_fields_witness :
  add_index 5 4 = add_index (5 + 2 ^ 10) 4
  ∧ add_rank 5 4 = add_rank (5 + 2 ^ 10) 4
  ∧ ∀ regs, add_regs 4 5 regs = add_regs 4 (5 + 2 ^ 10) regs.
Proof.
  apply (add_reads_two_bit_fields 5 (5 + 2 ^ 10) 4);
    unfold HLL_PRECISION_MIN, HLL_PRECISION_MAX; try lia; reflexivity.
Defined.

(** X10: registers stay small. If every word of the heap is at most 33,
    it is so after an initialization and after any sequence of successful
    additions and merges: a register is 0 or a run statistic, and a run
    statistic is at most the scan width plus one. *)
Theorem registers_at_most_33 {element : Type} alloc (h h0 h' : heap)
    (hll src : option (hll_t element)) err hll' :
  heap_ranks h →
  _hll_init_impl alloc h hll src = (err, hll', h0) →
  rtc (hll_step (element := element)) h0 h' →
  heap_ranks h'.
Proof.
  intros Hh Hinit Hsteps.
  assert (Hh0 : heap_ranks h0).
  { unfold _hll_init_impl in Hinit. destruct hll as [s0|];
      [|injection Hinit as _ _ <-; exact Hh].
    destruct (_ || _); [injection Hinit as _ _ <-; exact Hh|].
    destruct alloc as [|a]; cbn in Hinit; injection Hinit as _ _ <-;
      [exact Hh|].
    intros b rb. destruct (decide (a = b)) as [<-|Hne].
    - rewrite lookup_insert_eq. intros [= <-].
      apply Forall_replicate. unfold rank_value. lia.
    - rewrite lookup_insert_ne by exact Hne. apply Hh. }
  clear Hinit Hh. induction Hsteps as [h1|h1 h2 h3 Hstep _ IH]; [exact Hh0|].
  apply IH. clear IH.
  destruct Hstep as [o e n h2 Hadd|d s h2 Hmerge].
  - unfold hll_add in Hadd. destruct o as [s|]; [|discriminate].
    destruct (_registers s) as [|a]; [discriminate|].
    destruct (hash s) as [f|]; cbn [mbind option_bind] in Hadd; [|discriminate].
    destruct (load h1 _ _) as [old|] eqn:Hload;
      cbn [mbind option_bind] in Hadd; [|discriminate].
    destruct (store h1 _ _ _) as [hx|] eqn:Hstore;
      cbn [mbind option_bind] in Hadd; [|discriminate].
    injection Hadd as <-. eapply store_heap_ranks; [exact Hstore| |exact Hh0].
    apply hll_max_rank_value;
      [eapply load_heap_ranks; eassumption|apply add_rank_any_precision].
  - unfold hll_merge in Hmerge.
    destruct d as [d|], s as [s|]; try discriminate.
    destruct (_registers d) as [|ad], (_registers s) as [|as_]; try discriminate.
    destruct (for_each _ _ h1) as [hx|] eqn:Hloop;
      cbn [mbind option_bind] in Hmerge; [|discriminate].
    injection Hmerge as <-.
    refine (for_each_preserves (λ x y : heap, heap_ranks x → heap_ranks y)
              _ _ (λ _ H, H) (λ _ _ _ H1 H2 H, H2 (H1 H)) _ _ _ Hloop Hh0).
    intros i x y Hbody Hx. unfold merge_body in Hbody.
    destruct (load x (Addr ad) i) as [dv|] eqn:Hd; cbn [mbind option_bind] in Hbody;
      [|discriminate].
    destruct (load x (Addr as_) i) as [sv|] eqn:Hs;
      cbn [mbind option_bind] in Hbody; [|discriminate].
    eapply store_heap_ranks; [exact Hbody| |exact Hx].
    apply hll_max_rank_value; eapply load_heap_ranks; eassumption.
Qed.

Lemma registers_at_most_33_witness :
  heap_ranks {[ 0%nat := <[0%nat := 1]> (replicate 16 0) ]}.
Proof.
  apply (registers_at_most_33 (element := Z) (Addr 0) ∅
           {[ 0%nat := replicate 16 0 ]}
           {[ 0%nat := <[0%nat := 1]> (replicate 16 0) ]}
           (Some blank) (Some (mk_hll NULL 4 (Some id_hash))) HLL_OK
           (Some (mk_hll (Addr 0) 4 (Some id_hash)))).
  - intros a regs Ha. rewrite lookup_empty in Ha. discriminate.
  - reflexivity.
  - eapply rtc_l; [|apply rtc_refl].
    apply (step_add _ (Some (mk_hll (Addr 0) 4 (Some id_hash))) 5 4).
    vm_compute. reflexivity.
Defined.


(** ** Merges *)

Section MergeFacts.

Context {element : Type}.

(** [hll_merge] on two initialized estimators with distinct arrays. *)
Lemma hll_merge_distinct (h : heap) (d s : hll_t element) ad as_ rd rs :
  initialized h d ad rd → initialized h s as_ rs → ad ≠ as_ →
  hll_merge h (Some d) (Some s)
  = Some (HLL_OK,
          <[ad := merge_regs
                    (Z.to_nat (Z.min (2 ^ precision d) (2 ^ precision s)))
                    rd rs]> h).
Proof.
  intros [Hpd Hld Hprd Hlend] [Hps Hls Hprs Hlens] Hne.
  set (n := Z.min (2 ^ precision d) (2 ^ precision s)).
  assert (Hn : 0 ≤ n) by (subst n; apply Z.min_glb; apply Z.pow_nonneg; lia).
  unfold hll_merge. rewrite Hpd, Hps.
  rewrite !shl1_precision by assumption. fold n.
  replace (seqZ 0 n) with (seqZ 0 (Z.of_nat (Z.to_nat n)))
    by (now rewrite Z2Nat.id).
  rewrite (merge_loop_distinct h ad as_ rd rs) by (assumption || lia).
  reflexivity.
Qed.

(** [hll_merge] of an estimator into itself. *)
Lemma hll_merge_self (h : heap) (s : hll_t element) a regs :
  initialized h s a regs → hll_merge h (Some s) (Some s) = Some (HLL_OK, h).
Proof.
  intros [Hptr Hlive Hprec Hlen].
  unfold hll_merge. rewrite Hptr.
  rewrite !shl1_precision by assumption. rewrite Z.min_id.
  replace (seqZ 0 (2 ^ precision s))
    with (seqZ 0 (Z.of_nat (Z.to_nat (2 ^ precision s))))
    by (rewrite Z2Nat.id; [reflexivity|apply Z.pow_nonneg; lia]).
  rewrite (merge_loop_aliased h a regs) by (assumption || lia).
  reflexivity.
Qed.

Lemma merge_regs_full (n : nat) (rd rs : list Z) :
  length rd = n → length rs = n → merge_regs n rd rs = zip_with hll_max rd rs.
Proof.
  intros Hd Hs. unfold merge_regs.
  rewrite !take_ge, drop_ge, app_nil_r by lia. reflexivity.
Qed.

Lemma zip_max_comm (rd rs : list Z) :
  zip_with hll_max rd rs = zip_with hll_max rs rd.
Proof.
  revert rs. induction rd as [|x rd IH]; intros [|y rs]; cbn; try reflexivity.
  rewrite IH. f_equal. rewrite !hll_max_spec. lia.
Qed.

Lemma zip_max_absorb (rd rs : list Z) :
  length rd = length rs →
  zip_with hll_max (zip_with hll_max rd rs) rs = zip_with hll_max rd rs.
Proof.
  revert rs. induction rd as [|x rd IH]; intros [|y rs]; cbn; try reflexivity.
  intros [= Hlen]. rewrite IH by exact Hlen. f_equal.
  rewrite !hll_max_spec. lia.
Qed.

Lemma zip_max_zeros (rd : list Z) n :
  length rd = n → Forall rank_value rd →
  zip_with hll_max rd (replicate n 0) = rd.
Proof.
  intros <- Hall. induction Hall as [|x rd Hx _ IH]; cbn; [reflexivity|].
  rewrite IH. f_equal. unfold rank_value in Hx. rewrite hll_max_spec. lia.
Qed.

(** An addition commutes with the maximum with another array. *)
Lemma add_regs_zip_max p hv (ra rb : list Z) :
  add_regs p hv (zip_with hll_max ra rb) = zip_with hll_max ra (add_regs p hv rb).
Proof.
  unfold add_regs. apply list_eq. intros i.
  destruct (decide (Z.to_nat (add_index hv p) = i)) as [<-|Hne].
  - rewrite list_lookup_alter_eq, !lookup_zip_with, list_lookup_alter_eq.
    destruct (ra !! _) as [x|]; cbn; [|reflexivity].
    destruct (rb !! _) as [y|]; cbn; [|reflexivity].
    f_equal. rewrite !hll_max_spec. lia.
  - rewrite list_lookup_alter_ne, !lookup_zip_with, list_lookup_alter_ne
      by exact Hne. reflexivity.
Qed.

Lemma regs_after_zip_max p (f : hll_hash_func_t element) l : ∀ ra rb,
  regs_after p f l (zip_with hll_max ra rb)
  = zip_with hll_max ra (regs_after p f l rb).
Proof.
  unfold regs_after. induction l as [|x l IH]; intros ra rb; cbn [foldl];
    [reflexivity|].
  now rewrite add_regs_zip_max, IH.
Qed.

Lemma length_regs_after p (f : hll_hash_func_t element) l : ∀ regs,
  length (regs_after p f l regs) = length regs.
Proof.
  unfold regs_after. induction l as [|x l IH]; intros regs; cbn [foldl];
    [reflexivity|].
  now rewrite IH, length_add_regs.
Qed.

Lemma regs_after_initialized (h : heap) (s : hll_t element) a regs
    (f : hll_hash_func_t element) l :
  initialized h s a regs →
  initialized (<[a := regs_after (precision s) f l regs]> h) s a
    (regs_after (precision s) f l regs).
Proof.
  intros [Hptr Hlive Hprec Hlen]. split; try done.
  - apply lookup_insert_eq.
  - now rewrite length_regs_after.
Qed.

Lemma initialized_other_block (h : heap) (s : hll_t element) a regs b rb :
  initialized h s a regs → a ≠ b → initialized (<[b := rb]> h) s a regs.
Proof.
  intros [Hptr Hlive Hprec Hlen] Hne. split; try done.
  now rewrite lookup_insert_ne.
Qed.

End MergeFacts.

(** X11: merging is idempotent. A merge of an estimator into itself
    returns [HLL_OK] and leaves the heap as it was; and after a merge of
    [src] into [dest], of equal precision, a second merge of [src] into
    [dest] changes nothing. *)
Theorem merge_idempotent {element : Type} (h : heap) (d s : hll_t element)
    ad as_ rd rs :
  initialized h d ad rd → initialized h s as_ rs →
  precision d = precision s →
  hll_merge h (Some d) (Some d) = Some (HLL_OK, h)
  ∧ ∃ h1, hll_merge h (Some d) (Some s) = Some (HLL_OK, h1)
          ∧ hll_merge h1 (Some d) (Some s) = Some (HLL_OK, h1).
Proof.
  intros Hd Hs Hprec. split; [apply (hll_merge_self h d ad rd Hd)|].
  destruct (decide (ad = as_)) as [Heq|Hne].
  - subst as_. exists h.
    assert (Hsame : hll_merge h (Some d) (Some s) = Some (HLL_OK, h)).
    { destruct Hd as [Hpd Hld Hprd Hlend], Hs as [Hps Hls Hprs Hlens].
      unfold hll_merge. rewrite Hpd, Hps, Hprec. rewrite Hprec in Hlend.
      rewrite !shl1_precision by assumption. rewrite Z.min_id.
      replace (seqZ 0 (2 ^ precision s))
        with (seqZ 0 (Z.of_nat (Z.to_nat (2 ^ precision s))))
        by (rewrite Z2Nat.id; [reflexivity|apply Z.pow_nonneg; lia]).
      rewrite (merge_loop_aliased h ad rd) by (assumption || lia).
      reflexivity. }
    split; exact Hsame.
  - pose proof (init_len _ _ _ _ Hd) as Hlend.
    pose proof (init_len _ _ _ _ Hs) as Hlens.
    pose proof (init_prec _ _ _ _ Hs) as Hprs.
    assert (Hpos : 0 ≤ 2 ^ precision s) by (apply Z.pow_nonneg; lia).
    set (n := Z.to_nat (Z.min (2 ^ precision d) (2 ^ precision s))).
    assert (Hnd : length rd = n) by (subst n; rewrite Hprec, Z.min_id in *; lia).
    assert (Hns : length rs = n) by (subst n; rewrite Hprec, Z.min_id in *; lia).
    eexists. split; [apply (hll_merge_distinct h d s ad as_ rd rs Hd Hs Hne)|].
    fold n. rewrite (merge_regs_full n rd rs Hnd Hns).
    assert (Hd1 : initialized (<[ad := zip_with hll_max rd rs]> h) d ad
                    (zip_with hll_max rd rs)).
    { destruct Hd as [Hpd Hld Hprd _]. split; try done.
      - apply lookup_insert_eq.
      - rewrite length_zip_with. lia. }
    assert (Hs1 : initialized (<[ad := zip_with hll_max rd rs]> h) s as_ rs).
    { apply initialized_other_block; [exact Hs|congruence]. }
    rewrite (hll_merge_distinct _ d s ad as_ _ rs Hd1 Hs1 Hne). fold n.
    rewrite merge_regs_full, zip_max_absorb, insert_insert_eq;
      try reflexivity; try lia.
    rewrite length_zip_with. lia.
Qed.

Lemma merge_idempotent_witness :
  ∃ h1,
    hll_merge {[ 0%nat := replicate 16 1; 1%nat := replicate 16 3 ]}
      (Some (mk_hll (element := Z) (Addr 0) 4 None))
      (Some (mk_hll (element := Z) (Addr 1) 4 None)) = Some (HLL_OK, h1)
    ∧ hll_merge h1 (Some (mk_hll (element := Z) (Addr 0) 4 None))
        (Some (mk_hll (element := Z) (Addr 1) 4 None)) = Some (HLL_OK, h1).
Proof.
  refine (proj2 (merge_idempotent (element := Z)
            {[ 0%nat := replicate 16 1; 1%nat := replicate 16 3 ]}
            (mk_hll (Addr 0) 4 None) (mk_hll (Addr 1) 4 None)
            0%nat 1%nat (replicate 16 1) (replicate 16 3) _ _ eq_refl)).
  - split; cbn; try reflexivity. unfold HLL_PRECISION_MIN, HLL_PRECISION_MAX; lia.
  - split; cbn; try reflexivity. unfold HLL_PRECISION_MIN, HLL_PRECISION_MAX; lia.
Defined.

(** X12: merging commutes on the register contents. For two initialized
    estimators of equal precision with distinct arrays, the array of the
    first after the merge of the second into it is the array of the second
    after the merge of the first into it. *)
Theorem merge_commutes {element : Type} (h : heap) (x y : hll_t element)
    ax ay rx ry :
  initialized h x ax rx → initialized h y ay ry → ax ≠ ay →
  precision x = precision y →
  ∃ h1 h2 regs,
    hll_merge h (Some x) (Some y) = Some (HLL_OK, h1)
    ∧ hll_merge h (Some y) (Some x) = Some (HLL_OK, h2)
    ∧ h1 !! ax = Some regs ∧ h2 !! ay = Some regs.
Proof.
  intros Hx Hy Hne Hprec.
  pose proof (init_len _ _ _ _ Hx) as Hlenx.
  pose proof (init_len _ _ _ _ Hy) as Hleny.
  pose proof (init_prec _ _ _ _ Hy) as Hpry.
  assert (Hpos : 0 ≤ 2 ^ precision y) by (apply Z.pow_nonneg; lia).
  eexists _, _, (zip_with hll_max rx ry).
  split; [apply (hll_merge_distinct h x y ax ay rx ry Hx Hy Hne)|].
  split; [apply (hll_merge_distinct h y x ay ax ry rx Hy Hx); congruence|].
  rewrite !lookup_insert_eq, Hprec, Z.min_id.
  rewrite !merge_regs_full by (rewrite ?Hprec in *; lia).
  split; [reflexivity|]. now rewrite zip_max_comm.
Qed.

Lemma merge_commutes_witness :
  ∃ h1 h2 regs,
    hll_merge {[ 0%nat := replicate 16 1; 1%nat := replicate 16 3 ]}
      (Some (mk_hll (element := Z) (Addr 0) 4 None))
      (Some (mk_hll (element := Z) (Addr 1) 4 None)) = Some (HLL_OK, h1)
    ∧ hll_merge {[ 0%nat := replicate 16 1; 1%nat := replicate 16 3 ]}
        (Some (mk_hll (element := Z) (Addr 1) 4 None))
        (Some (mk_hll (element := Z) (Addr 0) 4 None)) = Some (HLL_OK, h2)
    ∧ h1 !! 0%nat = Some regs ∧ h2 !! 1%nat = Some regs.
Proof.
  apply (merge_commutes (element := Z)
           {[ 0%nat := replicate 16 1; 1%nat := replicate 16 3 ]}
           (mk_hll (Addr 0) 4 None) (mk_hll (Addr 1) 4 None)
           0%nat 1%nat (replicate 16 1) (replicate 16 3)).
  - split; cbn; try reflexivity. unfold HLL_PRECISION_MIN, HLL_PRECISION_MAX; lia.
  - split; cbn; try reflexivity. unfold HLL_PRECISION_MIN, HLL_PRECISION_MAX; lia.
  - discriminate.
  - reflexivity.
Defined.

(** X13: a merge computes the union. Two fresh estimators with the same
    precision and hash function receive the elements of [l1] and of [l2];
    after the merge of the second into the first, the array of the first
    is the array that a fresh estimator has after the additions of
    [l1 ++ l2]. *)
Theorem merge_is_union {element : Type} (h : heap) (f : hll_hash_func_t element)
    p a1 a2 (l1 l2 : list (element * Z)) :
  HLL_PRECISION_MIN ≤ p ≤ HLL_PRECISION_MAX → a1 ≠ a2 →
  h !! a1 = Some (replicate (Z.to_nat (2 ^ p)) 0) →
  h !! a2 = Some (replicate (Z.to_nat (2 ^ p)) 0) →
  let x := mk_hll (Addr a1) p (Some f) in
  let y := mk_hll (Addr a2) p (Some f) in
  ∃ h1 h2 h3 hu regs,
    add_all h (Some x) l1 = Some (replicate (length l1) HLL_OK, h1)
    ∧ add_all h1 (Some y) l2 = Some (replicate (length l2) HLL_OK, h2)
    ∧ hll_merge h2 (Some x) (Some y) = Some (HLL_OK, h3)
    ∧ add_all h (Some x) (l1 ++ l2)
      = Some (replicate (length (l1 ++ l2)) HLL_OK, hu)
    ∧ h3 !! a1 = Some regs ∧ hu !! a1 = Some regs.
Proof.
  intros Hp Hne H1 H2 x y.
  set (zeros := replicate (Z.to_nat (2 ^ p)) 0) in *.
  assert (Hpos : 0 ≤ 2 ^ p) by (apply Z.pow_nonneg; unfold HLL_PRECISION_MIN in Hp; lia).
  assert (Hlz : length zeros = Z.to_nat (2 ^ p)) by apply length_replicate.
  assert (Hx : initialized h x a1 zeros).
  { split; try done. rewrite Hlz. cbn. lia. }
  assert (Hy : initialized h y a2 zeros).
  { split; try done. rewrite Hlz. cbn. lia. }
  set (r1 := regs_after p f l1 zeros).
  set (r2 := regs_after p f l2 zeros).
  assert (Hr1 : Forall rank_value r1).
  { apply regs_after_rank_value; [exact Hp|].
    apply Forall_replicate. unfold rank_value. lia. }
  assert (Hx1 : initialized (<[a1 := r1]> h) x a1 r1)
    by apply (regs_after_initialized h x a1 zeros f l1 Hx).
  assert (Hy1 : initialized (<[a1 := r1]> h) y a2 zeros)
    by (apply initialized_other_block; [exact Hy|congruence]).
  assert (Hy2 : initialized (<[a2 := r2]> (<[a1 := r1]> h)) y a2 r2)
    by apply (regs_after_initialized _ y a2 zeros f l2 Hy1).
  assert (Hx2 : initialized (<[a2 := r2]> (<[a1 := r1]> h)) x a1 r1)
    by (apply initialized_other_block; assumption).
  eexists _, _, _, _, (regs_after p f (l1 ++ l2) zeros).
  split; [apply (add_all_ok l1 h x a1 zeros f Hx eq_refl)|].
  split; [apply (add_all_ok l2 _ y a2 zeros f Hy1 eq_refl)|].
  split; [apply (hll_merge_distinct _ x y a1 a2 r1 r2 Hx2 Hy2 Hne)|].
  split; [apply (add_all_ok (l1 ++ l2) h x a1 zeros f Hx eq_refl)|].
  rewrite !lookup_insert_eq. split; [|reflexivity]. f_equal.
  cbn [precision]. rewrite Z.min_id.
  rewrite merge_regs_full
    by (unfold r1, r2; rewrite length_regs_after; exact Hlz).
  assert (Happ : regs_after p f (l1 ++ l2) zeros = regs_after p f l2 r1)
    by (unfold r1, regs_after; apply foldl_app).
  rewrite Happ.
  rewrite <- (zip_max_zeros r1 (Z.to_nat (2 ^ p))) at 2;
    [|unfold r1; rewrite length_regs_after; exact Hlz|exact Hr1].
  fold zeros. now rewrite regs_after_zip_max.
Qed.

Lemma merge_is_union_witness :
  ∃ h1 h2 h3 hu regs,
    add_all {[ 0%nat := replicate 16 0; 1%nat := replicate 16 0 ]}
      (Some (mk_hll (Addr 0) 4 (Some id_hash))) [(5, 4)]
    = Some (replicate 1 HLL_OK, h1)
    ∧ add_all h1 (Some (mk_hll (Addr 1) 4 (Some id_hash))) [(4026531844, 4)]
      = Some (replicate 1 HLL_OK, h2)
    ∧ hll_merge h2 (Some (mk_hll (Addr 0) 4 (Some id_hash)))
        (Some (mk_hll (Addr 1) 4 (Some id_hash))) = Some (HLL_OK, h3)
    ∧ add_all {[ 0%nat := replicate 16 0; 1%nat := replicate 16 0 ]}
        (Some (mk_hll (Addr 0) 4 (Some id_hash)))
        ([(5, 4)] ++ [(4026531844, 4)])
      = Some (replicate 2 HLL_OK, hu)
    ∧ h3 !! 0%nat = Some regs ∧ hu !! 0%nat = Some regs.
Proof.
  apply (merge_is_union (element := Z)
           {[ 0%nat := replicate 16 0; 1%nat := replicate 16 0 ]} id_hash 4
           0%nat 1%nat [(5, 4)] [(4026531844, 4)]).
  - unfold HLL_PRECISION_MIN, HLL_PRECISION_MAX. lia.
  - discriminate.
  - reflexivity.
  - reflexivity.
Defined.


(** ** The estimate *)

Section CountFormula.

Lemma all_zero_replicate (l : list Z) :
  Forall (λ r, r = 0) l → l = replicate (length l) 0.
Proof. induction 1 as [|x l -> _ IH]; cbn; [reflexivity|]. now rewrite <- IH. Qed.

Lemma zero_count_replicate n : zero_count (replicate n 0) = Z.of_nat n.
Proof.
  unfold zero_count. f_equal.
  induction n as [|n IH]; cbn [replicate]; [reflexivity|].
  rewrite filter_cons_True by reflexivity. cbn. now rewrite IH.
Qed.

Lemma zero_count_app (l1 l2 : list Z) :
  zero_count (l1 ++ l2) = zero_count l1 + zero_count l2.
Proof. unfold zero_count. rewrite filter_app, length_app. lia. Qed.

(** Below [2^16] terms the sum of ones is exact, and the estimate that
    [hll_count] derives from [m - 1] ones is below the bound of its first
    test. *)
Lemma ones_sum_small_range p :
  HLL_PRECISION_MIN ≤ p ≤ HLL_PRECISION_MAX →
  ones_sum (Z.to_nat (2 ^ p - 1)) = F32.of_Z (2 ^ p - 1)
  ∧ count_regime (count_estimate (2 ^ p) (F32.of_Z (2 ^ p - 1))) (2 ^ p)
    = SmallRange.
Proof.
  intros Hp. pose proof (precision_cases p Hp) as Hin. clear Hp.
  repeat (apply elem_of_cons in Hin as [Hin|Hin];
          [subst p; split; vm_compute; reflexivity|]).
  inversion Hin.
Qed.

Variable powf : spec_float → spec_float → spec_float.
Hypothesis Hpowf : powf_conforms powf.

Lemma sum_of_zero_registers n : ∀ acc,
  foldl (sum_step powf) acc (replicate n 0)
  = Nat.iter n (λ x, F32.add x F32.one) acc.
Proof.
  induction n as [|n IH]; intros acc; [reflexivity|].
  cbn [replicate foldl]. rewrite IH, Nat.iter_succ_r.
  unfold sum_step. now rewrite (sum_term_zero powf Hpowf).
Qed.

(** [hll_count] when none of the first [m-1] registers was written. *)
Lemma hll_count_zero_prefix {element : Type} logf (h : heap)
    (s : hll_t element) a regs :
  initialized h s a regs →
  Forall (λ r, r = 0) (take (Z.to_nat (2 ^ precision s - 1)) regs) →
  hll_count powf logf h (Some s)
  = float_to_int (linear_counting logf (2 ^ precision s) (zero_count regs))
  ∧ 2 ^ precision s - 1 ≤ zero_count regs.
Proof.
  intros [Hptr Hlive Hprec Hlen] Hzeros. set (m := 2 ^ precision s) in *.
  assert (Hm : 16 ≤ m < 2 ^ 32).
  { unfold HLL_PRECISION_MIN, HLL_PRECISION_MAX in Hprec.
    split; [change 16 with (2 ^ 4); apply Z.pow_le_mono_r; lia|].
    apply pow2_lt_32. lia. }
  destruct (ones_sum_small_range _ Hprec) as [Hones Hreg]. fold m in Hones, Hreg.
  assert (Htake : take (Z.to_nat (m - 1)) regs = replicate (Z.to_nat (m - 1)) 0).
  { rewrite (all_zero_replicate _ Hzeros) at 1. rewrite length_take. f_equal. lia. }
  assert (Hsum : count_sum powf h (Addr a) (shl1 (precision s))
                 = Some (F32.of_Z (m - 1))).
  { unfold count_sum. rewrite shl1_precision by assumption. fold m.
    rewrite wrap32_small by lia.
    rewrite <- (Z2Nat.id (m - 1)) at 1 by lia.
    rewrite (sum_loop powf h a regs) by (assumption || lia).
    rewrite Htake, sum_of_zero_registers. exact (f_equal Some Hones). }
  assert (Hzero : count_zero_registers h (Addr a) (shl1 (precision s))
                  = Some (zero_count regs)).
  { unfold count_zero_registers. rewrite shl1_precision by assumption. fold m.
    rewrite <- (Z2Nat.id m) by lia.
    rewrite (zero_loop h a regs) by (assumption || lia).
    rewrite take_ge by lia. reflexivity. }
  assert (Hcount : m - 1 ≤ zero_count regs).
  { rewrite <- (take_drop (Z.to_nat (m - 1)) regs), zero_count_app, Htake,
      zero_count_replicate.
    pose proof (zero_count_bound (drop (Z.to_nat (m - 1)) regs)). lia. }
  split; [|exact Hcount].
  rewrite (hll_count_small_range powf logf h s a (F32.of_Z (m - 1))
             (zero_count regs)); try assumption.
  - rewrite shl1_precision by assumption. fold m.
    destruct (Z.eqb_spec (zero_count regs) 0); [lia|reflexivity].
  - rewrite shl1_precision by assumption. exact Hreg.
Qed.

End CountFormula.

(** X14: what [hll_count] returns on every initialized estimator whose
    registers are 0 or run statistics, with a [powf] that is 1 at the
    exponent 0 and infinite at the exponent [2^32]: 0 when no register is
    zero, and otherwise [(int)(m * logf((float)(m / V)))], [V] the number
    of zero registers and [m / V] the quotient of the two integers. The
    result depends on the registers only through [V]. *)
Theorem count_formula {element : Type} powf logf (h : heap)
    (s : hll_t element) a regs :
  powf_conforms powf → initialized h s a regs → Forall rank_value regs →
  hll_count powf logf h (Some s)
  = if zero_count regs =? 0 then Some 0
    else float_to_int
           (F32.mul (F32.of_Z (2 ^ precision s))
              (logf (F32.of_Z (2 ^ precision s ÷ zero_count regs)))).
Proof.
  intros Hpowf Hinit Hall.
  change (F32.mul (F32.of_Z (2 ^ precision s))
            (logf (F32.of_Z (2 ^ precision s ÷ zero_count regs))))
    with (linear_counting logf (2 ^ precision s) (zero_count regs)).
  destruct (decide (Exists (λ r, r ≠ 0)
                      (take (Z.to_nat (2 ^ precision s - 1)) regs)))
    as [Hex|Hnex].
  - exact (proj2 (proj2 (hll_count_on_ranks powf Hpowf logf h s a regs
                           Hinit Hall Hex))).
  - assert (Hzeros : Forall (λ r, r = 0)
                       (take (Z.to_nat (2 ^ precision s - 1)) regs)).
    { eapply Forall_impl; [apply not_Exists_Forall, Hnex; apply _|].
      cbn. intros r Hr. lia. }
    destruct (hll_count_zero_prefix powf Hpowf logf h s a regs Hinit Hzeros)
      as [Hcount Hpos].
    rewrite Hcount.
    pose proof (init_prec _ _ _ _ Hinit) as Hprec.
    unfold HLL_PRECISION_MIN, HLL_PRECISION_MAX in Hprec.
    assert (16 ≤ 2 ^ precision s)
      by (change 16 with (2 ^ 4); apply Z.pow_le_mono_r; lia).
    destruct (Z.eqb_spec (zero_count regs) 0); [lia|reflexivity].
Qed.

Lemma count_formula_witness :
  powf_conforms Libm.powf_ref
  ∧ ∀ logf,
      hll_count Libm.powf_ref logf {[ 0%nat := 1 :: 2 :: replicate 14 0 ]}
        (Some (mk_hll (Addr 0) 4 (Some id_hash)))
      = if zero_count (1 :: 2 :: replicate 14 0) =? 0 then Some 0
        else float_to_int
               (F32.mul (F32.of_Z (2 ^ 4))
                  (logf (F32.of_Z (2 ^ 4 ÷ zero_count (1 :: 2 :: replicate 14 0))))).
Proof.
  split; [exact powf_ref_conforms|]. intros logf.
  apply (count_formula (element := Z) Libm.powf_ref logf
           {[ 0%nat := 1 :: 2 :: replicate 14 0 ]}
           (mk_hll (Addr 0) 4 (Some id_hash)) 0%nat (1 :: 2 :: replicate 14 0)).
  - exact powf_ref_conforms.
  - split; [reflexivity|reflexivity| |reflexivity].
    unfold HLL_PRECISION_MIN, HLL_PRECISION_MAX. cbn. lia.
  - repeat (apply Forall_cons; split; [unfold rank_value; lia|]).
    apply Forall_nil_2.
Defined.

(** X15: an estimator to which nothing was added. After a successful
    initialization at any precision in range, [hll_count] is in the
    small-range branch with all [m] registers zero and returns
    [(int)(m * logf(1.0f))], for every [logf]. *)
Theorem count_of_fresh_estimator {element : Type} powf logf alloc (h : heap)
    (s0 : hll_t element) p f :
  powf_conforms powf → HLL_PRECISION_MIN ≤ p ≤ HLL_PRECISION_MAX →
  ∃ s h0,
    hll_init (Addr alloc) h (Some s0) p f = (HLL_OK, Some s, h0)
    ∧ count_zero_registers h0 (Addr alloc) (2 ^ p) = Some (2 ^ p)
    ∧ hll_count powf logf h0 (Some s)
      = float_to_int (F32.mul (F32.of_Z (2 ^ p)) (logf F32.one)).
Proof.
  intros Hpowf Hp.
  pose proof (init_initialized alloc h p f Hp) as Hinit.
  assert (Hpos : 16 ≤ 2 ^ p < 2 ^ 32).
  { unfold HLL_PRECISION_MIN, HLL_PRECISION_MAX in Hp.
    split; [change 16 with (2 ^ 4); apply Z.pow_le_mono_r; lia|].
    apply pow2_lt_32. lia. }
  eexists _, _. split; [apply init_ok, Hp|].
  assert (Hcz : zero_count (replicate (Z.to_nat (2 ^ p)) 0) = 2 ^ p)
    by (rewrite zero_count_replicate; lia).
  split.
  - unfold count_zero_registers. rewrite <- (Z2Nat.id (2 ^ p)) at 1 by lia.
    rewrite (zero_loop _ alloc (replicate (Z.to_nat (2 ^ p)) 0));
      [|apply lookup_insert_eq|rewrite length_replicate; lia|lia].
    rewrite take_ge by (rewrite length_replicate; lia). now rewrite Hcz.
  - destruct (hll_count_zero_prefix powf Hpowf logf _ _ alloc _ Hinit)
      as [Hcount _].
    { apply Forall_take, Forall_replicate. reflexivity. }
    rewrite Hcount. cbn [precision]. rewrite Hcz.
    unfold linear_counting, linear_counting_arg.
    rewrite Z.quot_same by lia. reflexivity.
Qed.

Lemma count_of_fresh_estimator_witness :
  ∃ s h0,
    hll_init (Addr 0) ∅ (Some blank) 10 (Some id_hash) = (HLL_OK, Some s, h0)
    ∧ ∀ logf, hll_count Libm.powf_ref logf h0 (Some s)
              = float_to_int (F32.mul (F32.of_Z (2 ^ 10)) (logf F32.one)).
Proof.
  eexists _, _. split; [reflexivity|]. intros logf.
  destruct (count_of_fresh_estimator (element := Z) Libm.powf_ref logf 0%nat ∅
              blank 10 (Some id_hash) powf_ref_conforms)
    as (s & h0 & H1 & _ & H3).
  - unfold HLL_PRECISION_MIN, HLL_PRECISION_MAX. lia.
  - injection H1 as <- <-. exact H3.
Defined.


(** ** The default hash function *)

Section HashString.

Variable char_signed : bool.

Lemma char_value_range b : -128 ≤ char_value char_signed b ≤ 255.
Proof.
  unfold char_value. pose proof (Byte.to_N_bounded b).
  destruct char_signed; cbn [andb]; [|lia].
  destruct (Z.leb_spec 128 (Z.of_N (Byte.to_N b))); lia.
Qed.

Lemma char_value_inj b1 b2 :
  char_value char_signed b1 = char_value char_signed b2 → b1 = b2.
Proof.
  unfold char_value. pose proof (Byte.to_N_bounded b1). pose proof (Byte.to_N_bounded b2).
  intros Heq. assert (Hn : Byte.to_N b1 = Byte.to_N b2).
  { destruct char_signed; cbn [andb] in Heq; [|lia].
    destruct (Z.leb_spec 128 (Z.of_N (Byte.to_N b1))),
             (Z.leb_spec 128 (Z.of_N (Byte.to_N b2))); lia. }
  apply (f_equal Byte.of_N) in Hn. rewrite !Byte.of_to_N in Hn. congruence.
Qed.

Lemma hash_string_loop (bytes : list Byte.byte) (n : nat) acc :
  (n ≤ length bytes)%nat →
  for_each (seqZ 0 (Z.of_nat n)) (hash_string_body char_signed bytes) acc
  = Some (djb2 char_signed acc (take n bytes)).
Proof.
  induction n as [|n IH]; intros Hn; [reflexivity|].
  rewrite seqZ_S, for_each_app, IH by lia. cbn [mbind option_bind for_each].
  rewrite Z.add_0_l. unfold hash_string_body. rewrite Nat2Z.id.
  destruct (lookup_lt_is_Some_2 bytes n ltac:(lia)) as [c Hc].
  rewrite Hc. cbn [mbind option_bind].
  rewrite (take_S_r bytes n c Hc). unfold djb2. now rewrite foldl_app.
Qed.

Lemma hash_string_defined (bytes : list Byte.byte) len :
  0 ≤ len ≤ Z.of_nat (length bytes) →
  hll_hash_string char_signed bytes len
  = Some (djb2 char_signed 5381 (take (Z.to_nat len) bytes)).
Proof.
  intros Hlen. unfold hll_hash_string.
  rewrite <- (Z2Nat.id len) at 1 by lia. apply hash_string_loop. lia.
Qed.

Lemma hash_string_out_of_bounds (bytes : list Byte.byte) len :
  Z.of_nat (length bytes) < len → hll_hash_string char_signed bytes len = None.
Proof.
  intros Hgt. unfold hll_hash_string.
  assert (Hsplit : seqZ 0 len
                   = seqZ 0 (Z.of_nat (length bytes))
                     ++ Z.of_nat (length bytes)
                        :: seqZ (Z.of_nat (length bytes) + 1)
                             (len - Z.of_nat (length bytes) - 1)).
  { replace len
      with (Z.of_nat (length bytes) + (1 + (len - Z.of_nat (length bytes) - 1)))
      at 1 by lia.
    rewrite seqZ_app by lia. f_equal. rewrite Z.add_0_l.
    rewrite seqZ_app by lia. reflexivity. }
  rewrite Hsplit, for_each_app, hash_string_loop by lia.
  cbn [mbind option_bind for_each]. unfold hash_string_body.
  rewrite Nat2Z.id, (lookup_ge_None_2 bytes (length bytes)) by lia.
  reflexivity.
Qed.

Lemma djb2_range acc cs :
  0 ≤ acc < 2 ^ 32 → 0 ≤ djb2 char_signed acc cs < 2 ^ 32.
Proof.
  revert acc. induction cs as [|c cs IH]; intros acc Hacc; [exact Hacc|].
  apply IH, wrap32_range.
Qed.

(** The characters [cs] act on the running value as an affine map modulo
    [2^32], of slope [33^|cs|]. *)
Lemma djb2_affine cs : ∀ x y,
  wrap32 (djb2 char_signed x cs - djb2 char_signed y cs)
  = wrap32 (33 ^ Z.of_nat (length cs) * (x - y)).
Proof.
  induction cs as [|c cs IH]; intros x y.
  - cbn. f_equal. lia.
  - cbn [djb2 foldl length]. fold (djb2 char_signed).
    change (foldl _ ?a cs) with (djb2 char_signed a cs).
    rewrite IH. unfold wrap32, bits.
    rewrite Nat2Z.inj_succ, Z.pow_succ_r by lia.
    rewrite <- Zmult_mod_idemp_r, <- Zminus_mod, Zmult_mod_idemp_r.
    f_equal. lia.
Qed.

Lemma odd_cancel m d : Z.odd m = true → (2 ^ 32 | m * d) → (2 ^ 32 | d).
Proof.
  intros Hodd Hdiv. apply (Z.gauss _ m); [exact Hdiv|].
  assert (Hpow : ∀ n : nat, Z.gcd (2 ^ Z.of_nat n) m = 1).
  { induction n as [|n IH]; [apply Z.gcd_1_l|].
    rewrite Nat2Z.inj_succ, Z.pow_succ_r by lia.
    pose proof (Z.gcd_nonneg (2 * 2 ^ Z.of_nat n) m) as Hnn.
    pose proof (Z.gcd_divide_l (2 * 2 ^ Z.of_nat n) m) as Hl.
    pose proof (Z.gcd_divide_r (2 * 2 ^ Z.of_nat n) m) as Hr.
    set (g := Z.gcd (2 * 2 ^ Z.of_nat n) m) in *.
    assert (Hg2 : (g | 2 ^ Z.of_nat n)).
    { apply (Z.gauss _ 2); [exact Hl|].
      rewrite Z.gcd_comm. apply Z.le_antisymm.
      - assert (H2 : Z.gcd 2 g ≠ 2).
        { intros H2. pose proof (Z.gcd_divide_r 2 g) as H2g. rewrite H2 in H2g.
          assert (H2m : (2 | m)) by (etransitivity; eassumption).
          destruct H2m as [q ->]. rewrite Z.mul_comm, Z.odd_mul in Hodd.
          discriminate Hodd. }
        pose proof (Z.gcd_divide_l 2 g) as H2l.
        apply Z.divide_pos_le in H2l; lia.
      - pose proof (Z.gcd_nonneg 2 g).
        destruct (Z.eq_dec (Z.gcd 2 g) 0) as [H0|]; [|lia].
        apply Z.gcd_eq_0_l in H0. lia. }
    apply Z.le_antisymm.
    - rewrite <- IH. apply Z.divide_pos_le.
      + rewrite IH. lia.
      + apply Z.gcd_greatest; assumption.
    - destruct (Z.eq_dec g 0) as [H0|]; [|lia].
      unfold g in H0. apply Z.gcd_eq_0_l in H0. lia. }
  exact (Hpow 32%nat).
Qed.

Lemma wrap32_eq_divide x y : wrap32 x = wrap32 y → (2 ^ 32 | x - y).
Proof.
  unfold wrap32, bits. intros Heq.
  apply Z.mod_divide; [lia|]. rewrite Zminus_mod, Heq, Z.sub_diag. reflexivity.
Qed.

Lemma divide_small d : (2 ^ 32 | d) → - 2 ^ 32 < d < 2 ^ 32 → d = 0.
Proof. intros [q ->] Hd. nia. Qed.

Lemma odd_pow33 (k : nat) : Z.odd (33 ^ Z.of_nat k) = true.
Proof.
  induction k as [|k IH]; [reflexivity|].
  rewrite Nat2Z.inj_succ, Z.pow_succ_r, Z.odd_mul, IH by lia. reflexivity.
Qed.

(** The characters that follow never merge two running values. *)
Lemma djb2_inj cs x y :
  0 ≤ x < 2 ^ 32 → 0 ≤ y < 2 ^ 32 →
  djb2 char_signed x cs = djb2 char_signed y cs → x = y.
Proof.
  intros Hx Hy Heq.
  pose proof (djb2_affine cs x y) as Haff. rewrite Heq, Z.sub_diag in Haff.
  symmetry in Haff. apply wrap32_eq_divide in Haff. rewrite Z.sub_0_r in Haff.
  apply odd_cancel in Haff; [|apply odd_pow33].
  apply divide_small in Haff; lia.
Qed.

Lemma hash_string_whole (bytes : list Byte.byte) :
  hll_hash_string char_signed bytes (Z.of_nat (length bytes))
  = Some (djb2 char_signed 5381 bytes).
Proof.
  rewrite hash_string_defined by lia. now rewrite Nat2Z.id, take_ge by lia.
Qed.

Lemma djb2_app acc s t :
  djb2 char_signed acc (s ++ t) = djb2 char_signed (djb2 char_signed acc s) t.
Proof. unfold djb2. apply foldl_app. Qed.

End HashString.

Lemma djb2_ascii cs acc :
  Forall (λ b, Z.of_N (Byte.to_N b) < 128) cs → djb2 true acc cs = djb2 false acc cs.
Proof.
  intros Hcs. revert acc. induction Hcs as [|c cs Hc _ IH]; intros acc; [reflexivity|].
  cbn [djb2 foldl]. change (foldl _ ?a cs) with (djb2 true a cs) at 1.
  change (foldl _ ?a cs) with (djb2 false a cs).
  rewrite IH. do 2 f_equal. unfold char_value. cbn [andb].
  destruct (Z.leb_spec 128 (Z.of_N (Byte.to_N c))); [lia|reflexivity].
Qed.

(** X16: [hll_hash_string] stays inside the buffer exactly when [len] is at
    most its size, and it then returns a 32-bit word that only depends on
    the first [len] bytes. *)
Theorem hash_string_reads_prefix sg (b1 b2 : list Byte.byte) (len : Z) :
  0 ≤ len →
  (is_Some (hll_hash_string sg b1 len) ↔ len ≤ Z.of_nat (length b1))
  ∧ (len ≤ Z.of_nat (length b1) →
     take (Z.to_nat len) b1 = take (Z.to_nat len) b2 →
     ∃ v, 0 ≤ v < 2 ^ 32
          ∧ hll_hash_string sg b1 len = Some v
          ∧ hll_hash_string sg b2 len = Some v).
Proof.
  intros Hlen. split; [split|].
  - intros Hsome.
    destruct (Z.le_gt_cases len (Z.of_nat (length b1))) as [|Hgt]; [assumption|].
    rewrite hash_string_out_of_bounds in Hsome by lia.
    now apply is_Some_None in Hsome.
  - intros Hle. rewrite hash_string_defined by lia. eauto.
  - intros Hle Htake.
    assert (Hle2 : len ≤ Z.of_nat (length b2)).
    { apply (f_equal length) in Htake. rewrite !length_take in Htake. lia. }
    exists (djb2 sg 5381 (take (Z.to_nat len) b1)). split; [|split].
    + apply djb2_range. lia.
    + apply hash_string_defined. lia.
    + rewrite Htake. apply hash_string_defined. lia.
Qed.

Lemma hash_string_reads_prefix_witness :
  ∃ v, hll_hash_string false [Byte.x61; Byte.x62; Byte.x63] 2 = Some v
       ∧ hll_hash_string false [Byte.x61; Byte.x62; Byte.x7a; Byte.x7a] 2 = Some v.
Proof.
  destruct (hash_string_reads_prefix false [Byte.x61; Byte.x62; Byte.x63]
              [Byte.x61; Byte.x62; Byte.x7a; Byte.x7a] 2 ltac:(lia)) as [_ H].
  destruct (H ltac:(cbn; lia) eq_refl) as (v & _ & H1 & H2).
  exists v. split; assumption.
Defined.

(** X17: Appending the same bytes to two strings neither creates nor removes
    a collision of [hll_hash_string]. *)
Theorem hash_string_common_suffix sg (s1 s2 t : list Byte.byte) :
  hll_hash_string sg (s1 ++ t) (Z.of_nat (length (s1 ++ t)))
  = hll_hash_string sg (s2 ++ t) (Z.of_nat (length (s2 ++ t)))
  ↔ hll_hash_string sg s1 (Z.of_nat (length s1))
    = hll_hash_string sg s2 (Z.of_nat (length s2)).
Proof.
  rewrite !hash_string_whole, !djb2_app. split; intros Heq.
  - f_equal. apply (djb2_inj sg t); [apply djb2_range; lia..|congruence].
  - congruence.
Qed.

(** X18: Two strings that differ in exactly one byte never have the same
    [hll_hash_string] value. *)
Theorem hash_string_one_byte sg (pre t : list Byte.byte) (c1 c2 : Byte.byte) :
  c1 ≠ c2 →
  hll_hash_string sg (pre ++ c1 :: t) (Z.of_nat (length (pre ++ c1 :: t)))
  ≠ hll_hash_string sg (pre ++ c2 :: t) (Z.of_nat (length (pre ++ c2 :: t))).
Proof.
  intros Hne Heq. rewrite !hash_string_whole, !djb2_app in Heq.
  cbn [djb2 foldl] in Heq. change (foldl _ ?a t) with (djb2 sg a t) in Heq.
  injection Heq as Heq. apply djb2_inj in Heq; [|apply wrap32_range..].
  apply wrap32_eq_divide in Heq.
  pose proof (char_value_range sg c1). pose proof (char_value_range sg c2).
  apply divide_small in Heq; [|lia].
  apply Hne, (char_value_inj sg). lia.
Qed.

Lemma hash_string_one_byte_witness :
  hll_hash_string true [Byte.x61; Byte.x62; Byte.x63] 3
  ≠ hll_hash_string true [Byte.x61; Byte.xff; Byte.x63] 3.
Proof.
  apply (hash_string_one_byte true [Byte.x61] [Byte.x63] Byte.x62 Byte.xff).
  discriminate.
Defined.

(** X19: On bytes below 128 the value of [hll_hash_string] does not depend
    on whether plain [char] is signed. *)
Theorem hash_string_ascii (bytes : list Byte.byte) (len : Z) :
  Forall (λ b, Z.of_N (Byte.to_N b) < 128) bytes →
  hll_hash_string true bytes len = hll_hash_string false bytes len.
Proof.
  intros Hascii. destruct (Z.le_gt_cases len 0) as [Hneg|Hpos].
  { unfold hll_hash_string. rewrite !seqZ_nil by lia. reflexivity. }
  destruct (Z.le_gt_cases len (Z.of_nat (length bytes))) as [Hle|Hgt].
  - rewrite !hash_string_defined by lia. f_equal. apply djb2_ascii.
    now apply Forall_take.
  - rewrite !hash_string_out_of_bounds by lia. reflexivity.
Qed.

Lemma hash_string_ascii_witness :
  hll_hash_string true [Byte.x61; Byte.x62; Byte.x63] 3
  = hll_hash_string false [Byte.x61; Byte.x62; Byte.x63] 3.
Proof.
  apply hash_string_ascii. repeat constructor.
Defined.


(** ** The hash and the generator of the example program *)

Section ExampleFacts.

Lemma word_lxor_range x y :
  0 ≤ x < 2 ^ 32 → 0 ≤ y < 2 ^ 32 → 0 ≤ Z.lxor x y < 2 ^ 32.
Proof.
  intros Hx Hy.
  assert (Hnn : 0 ≤ Z.lxor x y) by (apply Z.lxor_nonneg; lia).
  split; [exact Hnn|].
  destruct (Z.eq_dec (Z.lxor x y) 0) as [->|Hne]; [lia|].
  apply Z.log2_lt_pow2; [lia|].
  eapply Z.le_lt_trans; [apply Z.log2_lxor; lia|].
  apply Z.max_lub_lt.
  - destruct (Z.eq_dec x 0) as [->|]; [cbn; lia|]. apply Z.log2_lt_pow2; lia.
  - destruct (Z.eq_dec y 0) as [->|]; [cbn; lia|]. apply Z.log2_lt_pow2; lia.
Qed.

Lemma word_shiftr_range x k : 0 ≤ k → 0 ≤ x < 2 ^ 32 → 0 ≤ Z.shiftr x k < 2 ^ 32.
Proof.
  intros Hk Hx. rewrite Z.shiftr_div_pow2 by lia.
  assert (0 < 2 ^ k) by (apply Z.pow_pos_nonneg; lia).
  split; [apply Z.div_pos; lia|].
  eapply Z.le_lt_trans; [|apply Hx]. apply Z.div_le_upper_bound; nia.
Qed.

(** [a ^ (a >> k)] determines the word [a]: its bits are recovered from
    the top. *)
Lemma xorshift_inj k a b :
  0 < k → 0 ≤ a < 2 ^ 32 → 0 ≤ b < 2 ^ 32 →
  Z.lxor a (Z.shiftr a k) = Z.lxor b (Z.shiftr b k) → a = b.
Proof.
  intros Hk Ha Hb Heq.
  assert (Hbits : ∀ (n : nat) i, 32 - Z.of_nat n ≤ i → Z.testbit a i = Z.testbit b i).
  { induction n as [|n IH]; intros i Hi.
    - rewrite !word_testbit_high by lia. reflexivity.
    - destruct (Z.le_gt_cases 0 i) as [Hi0|Hi0]; [|now rewrite !Z.testbit_neg_r by lia].
      pose proof (f_equal (λ z, Z.testbit z i) Heq) as Hbit. cbn beta in Hbit.
      rewrite !Z.lxor_spec, !Z.shiftr_spec in Hbit by lia.
      rewrite (IH (i + k)) in Hbit by lia.
      destruct (Z.testbit a i), (Z.testbit b i), (Z.testbit b (i + k));
        (reflexivity || discriminate Hbit). }
  apply Z.bits_inj'. intros i Hi. apply (Hbits 32%nat). lia.
Qed.

Lemma wrap32_mul_odd_inj m a b :
  Z.odd m = true → 0 ≤ a < 2 ^ 32 → 0 ≤ b < 2 ^ 32 →
  wrap32 (a * m) = wrap32 (b * m) → a = b.
Proof.
  intros Hodd Ha Hb Heq. apply wrap32_eq_divide in Heq.
  replace (a * m - b * m) with (m * (a - b)) in Heq by lia.
  apply odd_cancel in Heq; [|exact Hodd].
  apply divide_small in Heq; lia.
Qed.

Lemma add_shl3 a : wrap32 (a + wrap32 (Z.shiftl a 3)) = wrap32 (a * 9).
Proof.
  unfold wrap32, bits. rewrite Z.shiftl_mul_pow2 by lia.
  rewrite Zplus_mod_idemp_r. f_equal. lia.
Qed.

End ExampleFacts.

(** X20: [integer_hash] of the example program sends distinct 32-bit
    elements to distinct 32-bit hash values, whatever the length argument. *)
Theorem integer_hash_injective (a b n1 n2 : Z) :
  0 ≤ a < 2 ^ 32 → 0 ≤ b < 2 ^ 32 →
  0 ≤ Example.integer_hash a n1 < 2 ^ 32
  ∧ (Example.integer_hash a n1 = Example.integer_hash b n2 → a = b).
Proof.
  intros Ha Hb. unfold Example.integer_hash. cbv zeta.
  rewrite !add_shl3.
  set (f1 := λ a, Z.lxor (Z.lxor a 61) (Z.shiftr a 16)).
  set (f2 := λ a, wrap32 (a * 9)).
  set (f3 := λ a, Z.lxor a (Z.shiftr a 4)).
  set (f4 := λ a, wrap32 (a * 668265261)).
  set (f5 := λ a, Z.lxor a (Z.shiftr a 15)).
  change (0 ≤ f5 (f4 (f3 (f2 (f1 a)))) < 2 ^ 32
          ∧ (f5 (f4 (f3 (f2 (f1 a)))) = f5 (f4 (f3 (f2 (f1 b)))) → a = b)).
  assert (R1 : ∀ x, 0 ≤ x < 2 ^ 32 → 0 ≤ f1 x < 2 ^ 32).
  { intros x Hx. unfold f1. apply word_lxor_range; [apply word_lxor_range; lia|].
    apply word_shiftr_range; lia. }
  assert (R2 : ∀ x, 0 ≤ f2 x < 2 ^ 32) by (intros; apply wrap32_range).
  assert (R3 : ∀ x, 0 ≤ x < 2 ^ 32 → 0 ≤ f3 x < 2 ^ 32).
  { intros x Hx. unfold f3. apply word_lxor_range; [lia|]. apply word_shiftr_range; lia. }
  assert (R4 : ∀ x, 0 ≤ f4 x < 2 ^ 32) by (intros; apply wrap32_range).
  assert (R5 : ∀ x, 0 ≤ x < 2 ^ 32 → 0 ≤ f5 x < 2 ^ 32).
  { intros x Hx. unfold f5. apply word_lxor_range; [lia|]. apply word_shiftr_range; lia. }
  split; [auto|]. intros Heq.
  apply xorshift_inj in Heq; [|lia|auto..].
  apply wrap32_mul_odd_inj in Heq; [|reflexivity|auto..].
  apply xorshift_inj in Heq; [|lia|auto..].
  apply wrap32_mul_odd_inj in Heq; [|reflexivity|auto..].
  assert (Hf1 : ∀ x, Z.lxor (f1 x) 61 = Z.lxor x (Z.shiftr x 16)).
  { intros x. unfold f1.
    rewrite (Z.lxor_comm x 61), !Z.lxor_assoc, (Z.lxor_comm 61), <- Z.lxor_assoc.
    rewrite Z.lxor_assoc, Z.lxor_nilpotent. apply Z.lxor_0_r. }
  apply (f_equal (λ z, Z.lxor z 61)) in Heq. rewrite !Hf1 in Heq.
  apply xorshift_inj in Heq; [exact Heq|lia|auto..].
Qed.

Lemma integer_hash_injective_witness :
  0 ≤ Example.integer_hash 7 4 < 2 ^ 32
  ∧ (Example.integer_hash 7 4 = Example.integer_hash 8 4 → 7 = 8).
Proof.
  apply (integer_hash_injective 7 8 4 4); lia.
Defined.

(** X21: [lcg] of the example program returns a value below [2^31] that
    only depends on the seed modulo [2^31], and two seeds below [2^31]
    never give the same value. *)
Theorem lcg_injective (s1 s2 : Z) :
  0 ≤ s1 < 2 ^ 32 → 0 ≤ s2 < 2 ^ 32 →
  0 ≤ Example.lcg s1 < 2 ^ 31
  ∧ Example.lcg s1 = Example.lcg (s1 mod 2 ^ 31)
  ∧ (s1 < 2 ^ 31 → s2 < 2 ^ 31 → Example.lcg s1 = Example.lcg s2 → s1 = s2).
Proof.
  intros H1 H2.
  assert (Hlcg : ∀ s, Example.lcg s = (1664525 * s + 1013904223) mod 2 ^ 31).
  { intros s. unfold Example.lcg, wrap32, bits.
    change (shl1 31) with (2 ^ 31). rewrite Zplus_mod_idemp_l.
    apply Z.mod_mod_divide. exists 2. lia. }
  rewrite !Hlcg. split; [apply Z.mod_pos_bound; lia|]. split.
  - symmetry. rewrite <- Zplus_mod_idemp_l, Zmult_mod_idemp_r, Zplus_mod_idemp_l.
    reflexivity.
  - intros Hs1 Hs2 Heq.
    assert (Hdiv : (2 ^ 31 | 1664525 * (s1 - s2))).
    { apply Z.mod_divide; [lia|].
      replace (1664525 * (s1 - s2))
        with ((1664525 * s1 + 1013904223) - (1664525 * s2 + 1013904223)) by lia.
      rewrite Zminus_mod, Heq, Z.sub_diag. reflexivity. }
    assert (Hdiv32 : (2 ^ 32 | 1664525 * (2 * (s1 - s2)))).
    { destruct Hdiv as [q Hq]. exists q. lia. }
    apply odd_cancel in Hdiv32; [|reflexivity].
    apply divide_small in Hdiv32; lia.
Qed.

Lemma lcg_injective_witness :
  0 ≤ Example.lcg 6969 < 2 ^ 31
  ∧ Example.lcg 6969 = Example.lcg (6969 mod 2 ^ 31)
  ∧ (6969 < 2 ^ 31 → 1 < 2 ^ 31 → Example.lcg 6969 = Example.lcg 1 → 6969 = 1).
Proof.
  apply (lcg_injective 6969 1); lia.
Defined.
